(** * Leaderboard: optimistic-locked score updates, debounced broadcast

    A shallow embedding of the backend of the Leaderboard application:
    the Mongoose model [Team] with its static [atomicUpdateScore] and its
    [pre('save')] hook, the handlers of [server.js] (the debouncer,
    [getLeaderboard], the REST routes, the socket handlers and the rate
    sampler), and the grading of a [pong] by the editor page.

    Node runs one handler at a time and a handler gives up control only
    at an [await]; a single MongoDB document operation is atomic.  The
    embedding keeps exactly that granularity: handlers are written in a
    small monad over the server state, and every [await] of the source is
    an [await] here, at which whatever else the server did in the
    meantime (the next entry of a schedule) is applied to the state
    before the awaited operation takes effect.

    Conventions.  Numbers are exact (see [Number]); what depends on the
    code's double arithmetic being exact is stated for whole scores
    within the safe integers (see [wholeScore]).  A document id is
    the string that renders it, and every id is taken to be well formed
    (an ill-formed one makes [findById] reject, which the callers treat
    like any other failure that is not a conflict; a statement that
    would differ for such an id is stated for [wellFormedId]).  Of the store's
    failures only that of the leaderboard query is modelled
    ([findFails]).  Messages of Mongoose's own errors are abbreviated;
    the handlers only test them for the word CONFLICT. *)

From Stdlib Require Import ZArith QArith Qcanon Ascii String List Lia.
From stdpp Require Import base numbers option list strings gmap sorting.

Local Open Scope Z_scope.
Local Open Scope string_scope.

(** ** JavaScript numbers

    A JS [Number] is modelled as [NaN] or an exact finite value.  Doubles
    round and overflow; the model agrees with them on the integers below
    2^53 and on the few fractions used in the examples.  Infinities are
    not modelled. *)

Inductive Number :=
  | NaN
  | Fin (q : Qc).




(** ** The Team document (models/Team.js, the schema with [version]) *)

Record Team := {
  name : string;
  madLudo : Qc;
  treasureHunt : Qc;
  spaceRoulette : Qc;
  cosmicJump : Qc;
  spaceColosseum : Qc;
  total : Qc;
  version : Z;
  createdAt : Z;
}.

(** The [teams] collection, keyed by [_id] (rendered as a string).  The
    [updatedAt] stamp that Mongoose's [timestamps] option maintains is
    never read by the application and is left out. *)
Abbreviation Db := (gmap string Team).

Definition validFields : list string :=
  ["madLudo"; "treasureHunt"; "spaceRoulette"; "cosmicJump"; "spaceColosseum"].

(** [Array.prototype.includes] on an array of strings. *)
Definition includes (l : list string) (x : string) : bool :=
  bool_decide (x ∈ l).

(** [doc[field]] for a score path. *)
Definition getField (field : string) (t : Team) : Qc :=
  if decide (field = "madLudo") then madLudo t
  else if decide (field = "treasureHunt") then treasureHunt t
  else if decide (field = "spaceRoulette") then spaceRoulette t
  else if decide (field = "cosmicJump") then cosmicJump t
  else spaceColosseum t.

(** [$set: { [field]: v }] on a score path. *)
Definition setField (field : string) (v : Qc) (t : Team) : Team :=
  if decide (field = "madLudo") then
    {| name := name t; madLudo := v; treasureHunt := treasureHunt t;
       spaceRoulette := spaceRoulette t; cosmicJump := cosmicJump t;
       spaceColosseum := spaceColosseum t; total := total t;
       version := version t; createdAt := createdAt t |}
  else if decide (field = "treasureHunt") then
    {| name := name t; madLudo := madLudo t; treasureHunt := v;
       spaceRoulette := spaceRoulette t; cosmicJump := cosmicJump t;
       spaceColosseum := spaceColosseum t; total := total t;
       version := version t; createdAt := createdAt t |}
  else if decide (field = "spaceRoulette") then
    {| name := name t; madLudo := madLudo t; treasureHunt := treasureHunt t;
       spaceRoulette := v; cosmicJump := cosmicJump t;
       spaceColosseum := spaceColosseum t; total := total t;
       version := version t; createdAt := createdAt t |}
  else if decide (field = "cosmicJump") then
    {| name := name t; madLudo := madLudo t; treasureHunt := treasureHunt t;
       spaceRoulette := spaceRoulette t; cosmicJump := v;
       spaceColosseum := spaceColosseum t; total := total t;
       version := version t; createdAt := createdAt t |}
  else
    {| name := name t; madLudo := madLudo t; treasureHunt := treasureHunt t;
       spaceRoulette := spaceRoulette t; cosmicJump := cosmicJump t;
       spaceColosseum := v; total := total t;
       version := version t; createdAt := createdAt t |}.

(** [$inc: { total: d, version: 1 }].  The sum is exact here; MongoDB's
    is a sum of doubles, which is the same on safe integers and rounds
    elsewhere. *)
Definition incTotalVersion (d : Qc) (t : Team) : Team :=
  {| name := name t; madLudo := madLudo t; treasureHunt := treasureHunt t;
     spaceRoulette := spaceRoulette t; cosmicJump := cosmicJump t;
     spaceColosseum := spaceColosseum t; total := (total t + d)%Qc;
     version := version t + 1; createdAt := createdAt t |}.

(** [this.madLudo + this.treasureHunt + this.spaceRoulette + this.cosmicJump
    + this.spaceColosseum], as the pre-save hook writes it. *)
Definition scoreSum (t : Team) : Qc :=
  (madLudo t + treasureHunt t + spaceRoulette t + cosmicJump t
   + spaceColosseum t)%Qc.

(** The invariant of the data model: [total] is the sum of the five scores. *)
Definition consistent (t : Team) : Prop := total t = scoreSum t.

#[global] Instance consistent_dec t : Decision (consistent t).
Proof. unfold consistent. apply _. Defined.

(** ** Server state (the module-level variables of server.js, the timer
    queue of the runtime, the collection, and what has been emitted) *)

(** The argument of the [updateScore] socket event; [value] is held as
    [Number(value)] makes it. *)
Record UpdateScoreData := {
  teamId : string;
  field : string;
  value : Number;
}.

(** What a [setTimeout] callback of this program can be: the closure
    created in [debouncedBroadcast], or [attemptUpdate] of one
    [updateScore] event (closed over its socket, its [data] and the
    shared [retryCount]). *)
Inductive Callback :=
  | BroadcastCb
  | AttemptUpdateCb (socket : string) (data : UpdateScoreData) (retryCount : Z).

Record Timer := {
  handle : nat;
  due : Z;
  callback : Callback;
}.

(** An element of the array [getLeaderboard] returns:
    [{ ...team, _id: team._id.toString(), rank: index + 1 }]. *)
Record Entry := {
  entry_id : string;
  entry_team : Team;
  rank : Z;
}.

Record ServerLoad := {
  connections : Z;
  updatesPerSecond : Z;
}.

Inductive Message :=
  | leaderboardUpdated (leaderboard : list Entry)
  | updateSuccess (teamId field : string) (value : Number) (team : Team)
      (attempts : Z)
  | updateError (message teamId field : string) (retryCount : Z)
      (serverLoad : ServerLoad)
  | pong (serverTime : Z) (load : ServerLoad).

Inductive Emit :=
  | SocketEmit (socket : string) (m : Message)
  | IoEmit (m : Message).

Record State := {
  db : Db;
  findFails : bool;
  broadcastTimeout : option nat;
  activeConnections : Z;
  totalUpdatesPerSecond : Z;
  updateCounter : Z;
  timers : list Timer;
  nextHandle : nat;
  now : Z;
  emitted : list Emit;
}.

Definition set_db (f : Db → Db) (st : State) : State :=
  {| db := f (db st); findFails := findFails st;
     broadcastTimeout := broadcastTimeout st;
     activeConnections := activeConnections st;
     totalUpdatesPerSecond := totalUpdatesPerSecond st;
     updateCounter := updateCounter st; timers := timers st;
     nextHandle := nextHandle st; now := now st; emitted := emitted st |}.

Definition set_broadcastTimeout (v : option nat) (st : State) : State :=
  {| db := db st; findFails := findFails st; broadcastTimeout := v;
     activeConnections := activeConnections st;
     totalUpdatesPerSecond := totalUpdatesPerSecond st;
     updateCounter := updateCounter st; timers := timers st;
     nextHandle := nextHandle st; now := now st; emitted := emitted st |}.

Definition set_activeConnections (f : Z → Z) (st : State) : State :=
  {| db := db st; findFails := findFails st;
     broadcastTimeout := broadcastTimeout st;
     activeConnections := f (activeConnections st);
     totalUpdatesPerSecond := totalUpdatesPerSecond st;
     updateCounter := updateCounter st; timers := timers st;
     nextHandle := nextHandle st; now := now st; emitted := emitted st |}.

Definition set_counters (ups cnt : Z) (st : State) : State :=
  {| db := db st; findFails := findFails st;
     broadcastTimeout := broadcastTimeout st;
     activeConnections := activeConnections st;
     totalUpdatesPerSecond := ups; updateCounter := cnt;
     timers := timers st; nextHandle := nextHandle st; now := now st;
     emitted := emitted st |}.

Definition set_timers (ts : list Timer) (next : nat) (st : State) : State :=
  {| db := db st; findFails := findFails st;
     broadcastTimeout := broadcastTimeout st;
     activeConnections := activeConnections st;
     totalUpdatesPerSecond := totalUpdatesPerSecond st;
     updateCounter := updateCounter st; timers := ts; nextHandle := next;
     now := now st; emitted := emitted st |}.

Definition set_now (t : Z) (st : State) : State :=
  {| db := db st; findFails := findFails st;
     broadcastTimeout := broadcastTimeout st;
     activeConnections := activeConnections st;
     totalUpdatesPerSecond := totalUpdatesPerSecond st;
     updateCounter := updateCounter st; timers := timers st;
     nextHandle := nextHandle st; now := t; emitted := emitted st |}.

Definition add_emitted (e : Emit) (st : State) : State :=
  {| db := db st; findFails := findFails st;
     broadcastTimeout := broadcastTimeout st;
     activeConnections := activeConnections st;
     totalUpdatesPerSecond := totalUpdatesPerSecond st;
     updateCounter := updateCounter st; timers := timers st;
     nextHandle := nextHandle st; now := now st;
     emitted := emitted st ++ [e] |}.

(** ** Exceptions and the handler monad *)

(** [Error msg] is [new Error(msg)]; [ReferenceError x] is what reading
    the unbound identifier [x] raises. *)
Inductive Exn :=
  | Error (message : string)
  | ReferenceError (ident : string).

Definition message_of (e : Exn) : string :=
  match e with
  | Error m => m
  | ReferenceError x => x ++ " is not defined"
  end.

Inductive Completion (A : Type) :=
  | Return (a : A)
  | Throw (e : Exn).
Arguments Return {A} a.
Arguments Throw {A} e.

(** What the rest of the server does while a handler is suspended: one
    state transformer for each [await] the handler reaches, in order.
    When the schedule is used up nothing else runs. *)
Definition Sched := list (State → State).

Definition M (A : Type) : Type :=
  Sched → State → Completion A * State * Sched.

#[global] Instance M_ret : MRet M := λ A a k st, (Return a, st, k).

#[global] Instance M_bind : MBind M := λ A B f m k st,
  match m k st with
  | (Return a, st', k') => f a k' st'
  | (Throw e, st', k') => (Throw e, st', k')
  end.

Definition throw {A} (e : Exn) : M A := λ k st, (Throw e, st, k).

(** [try { m } catch (error) { h error }]. *)
Definition try_catch {A} (m : M A) (h : Exn → M A) : M A := λ k st,
  match m k st with
  | (Return a, st', k') => (Return a, st', k')
  | (Throw e, st', k') => h e k' st'
  end.

Definition get : M State := λ k st, (Return st, st, k).
Definition modify (f : State → State) : M unit := λ k st, (Return tt, f st, k).

(** The suspension at an [await]: the next entry of the schedule runs. *)
Definition yield : M unit := λ k st,
  match k with
  | [] => (Return tt, st, [])
  | e :: k' => (Return tt, e st, k')
  end.

(** [await op]: the handler is suspended, the rest of the server runs,
    then the awaited operation takes effect and the handler resumes with
    its result.  Where [op] is itself an [async] function of the
    program, the part of it that runs before its own first [await]
    reads no state, so that suspending first changes nothing. *)
Definition await {A} (op : M A) : M A := yield ;; op.

(** Running a handler with nothing else going on. *)
Definition run {A} (m : M A) (st : State) : Completion A * State :=
  let '(r, st', _) := m [] st in (r, st').

(** ** Model operations of Mongoose used by the application *)

(** [Team.findById(teamId)] for a well-formed [teamId]: the document,
    or [null].  (For an id that is not well formed Mongoose rejects with
    a [CastError]; that case is not modelled.) *)
Definition findById (teamId : string) : M (option Team) :=
  st ← get; mret (db st !! teamId).

(** [Team.findOneAndUpdate({ _id: teamId, version: ver },
      { $set: { [field]: newValue }, $inc: { total: difference, version: 1 } },
      { new: true, runValidators: true })]:
    one atomic document operation; the updated document, or [null] when
    no document matches the filter.  [newValue] has passed the [min: 0]
    validator when this is called. *)
Definition findOneAndUpdate (teamId : string) (ver : Z) (field : string)
    (newValue difference : Qc) : M (option Team) :=
  st ← get;
  match db st !! teamId with
  | Some doc =>
      if decide (version doc = ver) then
        let doc' := incTotalVersion difference (setField field newValue doc) in
        modify (set_db (insert teamId doc'));; mret (Some doc')
      else mret None
  | None => mret None
  end.

(** ** models/Team.js: the static method [atomicUpdateScore] *)

Definition CONFLICT_MESSAGE : string :=
  "CONFLICT: Score was updated by another user. Please refresh and try again.".

(** The fourth parameter [currentVersion] is declared by the source and
    used nowhere in its body; both callers omit it ([None] is
    [undefined]).  The test [isNaN(newValue) || newValue < 0] is the
    match on [newValue] followed by the comparison. *)
Definition atomicUpdateScore (teamId field : string) (newValue : Number)
    (currentVersion : option Z) : M Team :=
  if negb (includes validFields field) then
    throw (Error "Invalid field for update")
  else
    match newValue with
    | NaN => throw (Error "Invalid score value")
    | Fin v =>
        if bool_decide (v < 0)%Qc then throw (Error "Invalid score value")
        else
          currentTeam ← await (findById teamId);
          match currentTeam with
          | None => throw (Error "Team not found")
          | Some currentTeam =>
              let oldValue := getField field currentTeam in
              let difference := (v - oldValue)%Qc in
              result ← await (findOneAndUpdate teamId (version currentTeam)
                                 field v difference);
              match result with
              | None => throw (Error CONFLICT_MESSAGE)
              | Some result => mret result
              end
          end
    end.

(** ** models/Team.js: the [pre('save')] hook and [save()]

    [save] is called on a document that was loaded ([loaded]) and then
    assigned to ([doc]).  Mongoose validates the document, runs the
    hook, and writes the modified paths with one [$set] on the stored
    document of the same [_id]; nothing compares or touches [version]. *)

(** [this.isModified([...five score paths...])]: a path counts as
    modified when the assigned value differs from the loaded one. *)
Definition scoresModified (loaded doc : Team) : bool :=
  negb (bool_decide (madLudo doc = madLudo loaded
                     ∧ treasureHunt doc = treasureHunt loaded
                     ∧ spaceRoulette doc = spaceRoulette loaded
                     ∧ cosmicJump doc = cosmicJump loaded
                     ∧ spaceColosseum doc = spaceColosseum loaded)).

Definition set_total (v : Qc) (t : Team) : Team :=
  {| name := name t; madLudo := madLudo t; treasureHunt := treasureHunt t;
     spaceRoulette := spaceRoulette t; cosmicJump := cosmicJump t;
     spaceColosseum := spaceColosseum t; total := v;
     version := version t; createdAt := createdAt t |}.

Definition set_name (s : string) (t : Team) : Team :=
  {| name := s; madLudo := madLudo t; treasureHunt := treasureHunt t;
     spaceRoulette := spaceRoulette t; cosmicJump := cosmicJump t;
     spaceColosseum := spaceColosseum t; total := total t;
     version := version t; createdAt := createdAt t |}.

(** The hook; [this.isNew] is false for a loaded document. *)
Definition preSave (loaded doc : Team) : Team :=
  if scoresModified loaded doc then set_total (scoreSum doc) doc else doc.

(** The [$set] of the modified paths, applied to the stored document. *)
Definition writeModified (loaded doc stored : Team) : Team :=
  let pick {A} `{EqDecision A} (f : Team → A) : A :=
    if decide (f doc = f loaded) then f stored else f doc in
  {| name := pick name; madLudo := pick madLudo;
     treasureHunt := pick treasureHunt; spaceRoulette := pick spaceRoulette;
     cosmicJump := pick cosmicJump; spaceColosseum := pick spaceColosseum;
     total := pick total; version := version stored;
     createdAt := createdAt stored |}.

(** Schema validation on save: [name] is required, every score has
    [min: 0]. *)
Definition validDoc (doc : Team) : bool :=
  negb (bool_decide (name doc = ""))
  && bool_decide (0 ≤ madLudo doc)%Qc && bool_decide (0 ≤ treasureHunt doc)%Qc
  && bool_decide (0 ≤ spaceRoulette doc)%Qc && bool_decide (0 ≤ cosmicJump doc)%Qc
  && bool_decide (0 ≤ spaceColosseum doc)%Qc.

(** The unique index on [name]: no other document carries the name. *)
Definition nameTaken (d : Db) (id : string) (s : string) : bool :=
  bool_decide (Exists (λ p, p.1 ≠ id ∧ name p.2 = s) (map_to_list d)).

Definition save (id : string) (loaded doc : Team) : M Team :=
  if negb (validDoc doc) then throw (Error "Team validation failed")
  else
    let doc := preSave loaded doc in
    st ← get;
    match db st !! id with
    | None => throw (Error "No document found for query")
    | Some stored =>
        if negb (bool_decide (name doc = name loaded))
           && nameTaken (db st) id (name doc)
        then throw (Error "E11000 duplicate key error")
        else
          modify (set_db (insert id (writeModified loaded doc stored)));;
          mret doc
    end.

(** ** server.js: timers and the debouncer *)

Definition BROADCAST_DELAY : Z := 100.

(** [setTimeout(cb, delay)]: a fresh handle. *)
Definition setTimeout (cb : Callback) (delay : Z) : M nat :=
  st ← get;
  let h := nextHandle st in
  modify (set_timers
            (timers st ++ [{| handle := h; due := now st + delay; callback := cb |}])
            (S h));;
  mret h.

(** [clearTimeout(h)]: no effect when [h] is not pending. *)
Definition clearTimeout (h : nat) : M unit :=
  modify (λ st, set_timers (filter (λ t, handle t ≠ h) (timers st))
                  (nextHandle st) st).

(** A [Timeout] object is truthy, [null] is not. *)
Definition debouncedBroadcast : M unit :=
  st ← get;
  (match broadcastTimeout st with
   | Some h => clearTimeout h
   | None => mret tt
   end);;
  h ← setTimeout BroadcastCb BROADCAST_DELAY;
  modify (set_broadcastTimeout (Some h)).

(** ** server.js: the ranked snapshot *)

(** [.sort({ total: -1, createdAt: 1 })]: larger total first, then the
    older document first. *)
Definition rankedBefore (a b : string * Team) : Prop :=
  (total b.2 < total a.2)%Qc
  ∨ (total a.2 = total b.2 ∧ (createdAt a.2 ≤ createdAt b.2)%Z).

#[global] Instance rankedBefore_dec a b : Decision (rankedBefore a b).
Proof. unfold rankedBefore. apply _. Defined.

(** [Team.find().sort(...).lean()]; the query rejects when the store
    cannot be reached. *)
Definition findSorted : M (list (string * Team)) :=
  st ← get;
  if findFails st then throw (Error "store unavailable")
  else mret (merge_sort rankedBefore (map_to_list (db st))).

Definition assignRanks (teams : list (string * Team)) : list Entry :=
  imap (λ index team,
          {| entry_id := team.1; entry_team := team.2;
             rank := Z.of_nat index + 1 |}) teams.

Definition getLeaderboard : M (list Entry) :=
  try_catch
    (teams ← await findSorted;
     mret (assignRanks teams))
    (λ error, throw error).

Definition broadcastLeaderboard : M unit :=
  try_catch
    (leaderboard ← await getLeaderboard;
     modify (add_emitted (IoEmit (leaderboardUpdated leaderboard))))
    (λ error, mret tt).

(** The closure given to [setTimeout] in [debouncedBroadcast]. *)
Definition broadcastCallback : M unit :=
  try_catch
    (await broadcastLeaderboard;;
     modify (set_broadcastTimeout None))
    (λ error, modify (set_broadcastTimeout None)).

(** ** server.js: the [updateScore] socket handler *)

Definition MAX_RETRIES : Z := 5.

(** [s.includes(sub)] on strings. *)
Definition includesStr (s sub : string) : bool :=
  match String.index 0 sub s with Some _ => true | None => false end.

(** The identifiers bound where the [catch] block of [attemptUpdate]
    runs: its own parameter, the variables of the [updateScore]
    listener and of the connection listener, the module-level bindings
    and the globals it uses.  [teamId], [field], [value], [numValue] and
    [updatedTeam] are [const] declarations of the [try] block: their
    scope ends with that block, and no enclosing scope declares them. *)
Definition catchScope : list string :=
  ["error"; "retryCount"; "MAX_RETRIES"; "attemptUpdate"; "data"; "socket";
   "activeConnections"; "totalUpdatesPerSecond"; "updateCounter";
   "broadcastTimeout"; "BROADCAST_DELAY"; "debouncedBroadcast";
   "getLeaderboard"; "broadcastLeaderboard"; "io"; "app"; "httpServer";
   "Team"; "console"; "Math"; "setTimeout"].

(** Reading identifier [x] where [scope] is visible: its value [v], or a
    [ReferenceError]. *)
Definition readIdent {A} (scope : list string) (x : string) (v : A) : M A :=
  if includes scope x then mret v else throw (ReferenceError x).

(** [attemptUpdate], for the event [data] of [socket], with the current
    value of the shared [retryCount]; [jitter] is what
    [Math.random() * 100] yields if it is reached (whole milliseconds). *)
Definition attemptUpdate (socket : string) (data : UpdateScoreData)
    (retryCount : Z) (jitter : Z) : M unit :=
  try_catch
    (let teamId := teamId data in
     let field := field data in
     let numValue := value data in
     updatedTeam ← await (atomicUpdateScore teamId field numValue None);
     debouncedBroadcast;;
     modify (add_emitted
               (SocketEmit socket
                  (updateSuccess teamId field numValue updatedTeam
                     (retryCount + 1)))))
    (λ error,
       if includesStr (message_of error) "CONFLICT"
          && bool_decide (retryCount < MAX_RETRIES)%Z
       then
         let retryCount := retryCount + 1 in
         (* console.log(`Retrying update for ${field} ...`) *)
         _ ← readIdent catchScope "field" (field data);
         let baseDelay := Z.min (50 * 2 ^ (retryCount - 1)) 500 in
         let delay := baseDelay + jitter in
         _ ← setTimeout (AttemptUpdateCb socket data retryCount) delay;
         mret tt
       else
         st ← get;
         let message := message_of error in
         teamId ← readIdent catchScope "teamId" (teamId data);
         field ← readIdent catchScope "field" (field data);
         modify (add_emitted
                   (SocketEmit socket
                      (updateError message teamId field retryCount
                         {| connections := activeConnections st;
                            updatesPerSecond := totalUpdatesPerSecond st |})))).

(** [socket.on('updateScore', async (data) => ...)]. *)
Definition onUpdateScore (socket : string) (data : UpdateScoreData)
    (jitter : Z) : M unit :=
  modify (λ st, set_counters (totalUpdatesPerSecond st) (updateCounter st + 1) st);;
  await (attemptUpdate socket data 0 jitter).

(** [io.on('connection', ...)]: the counter, then the first snapshot. *)
Definition onConnection (socket : string) : M unit :=
  modify (set_activeConnections (λ n, n + 1));;
  try_catch
    (leaderboard ← getLeaderboard;
     modify (add_emitted (SocketEmit socket (leaderboardUpdated leaderboard))))
    (λ error, mret tt).

(** [socket.on('disconnect', ...)]. *)
Definition onDisconnect (socket : string) : M unit :=
  modify (set_activeConnections (λ n, n - 1)).

(** [socket.on('ping', ...)]. *)
Definition onPing (socket : string) : M unit :=
  st ← get;
  modify (add_emitted
            (SocketEmit socket
               (pong (now st)
                  {| connections := activeConnections st;
                     updatesPerSecond := totalUpdatesPerSecond st |}))).

(** The [setInterval] callback that samples the update rate. *)
Definition sampleRate : M unit :=
  modify (λ st, set_counters (updateCounter st) 0 st).

(** The runtime firing the pending timer [h] once it is due: the timer
    leaves the queue and its callback runs. *)
Definition fireTimer (h : nat) (jitter : Z) : M unit :=
  st ← get;
  match List.find (λ t, bool_decide (handle t = h)) (timers st) with
  | Some t =>
      if bool_decide (due t ≤ now st)%Z then
        clearTimeout h;;
        match callback t with
        | BroadcastCb => broadcastCallback
        | AttemptUpdateCb socket data retryCount =>
            attemptUpdate socket data retryCount jitter
        end
      else mret tt
  | None => mret tt
  end.

(** Time passing. *)
Definition tick (ms : Z) (st : State) : State := set_now (now st + ms) st.

(** The timers that will broadcast. *)
Definition isBroadcast (t : Timer) : bool :=
  match callback t with BroadcastCb => true | AttemptUpdateCb _ _ _ => false end.

Definition pendingBroadcasts (st : State) : list Timer :=
  List.filter isBroadcast (timers st).

(** ** server.js: the REST routes *)

Inductive Body :=
  | TeamJson (t : Team)
  | LeaderboardJson (l : list Entry)
  | ErrorJson (error : string).

Record Response := {
  status : Z;
  body : Body;
}.

(** The JSON body of a PATCH request: [name], when present, is a string
    (given without surrounding white space, so that the schema's [trim]
    leaves it alone); every other key carries a JSON number.  Keys are
    distinct, as in any parsed JSON object. *)
Record PatchBody := {
  body_name : option string;
  body_numbers : list (string * Qc);
}.

(** [Object.keys(updates)]. *)
Definition keys (updates : PatchBody) : list string :=
  (match body_name updates with Some _ => ["name"] | None => [] end)
  ++ (body_numbers updates).*1.

(** [updates[key]] for a key that is not [name]. *)
Definition lookupNumber (updates : PatchBody) (key : string) : option Qc :=
  snd <$> List.find (λ p, bool_decide (p.1 = key)) (body_numbers updates).

(** [Number(v)]: [Number(undefined)] is [NaN]. *)
Definition toNumber (v : option Qc) : Number :=
  match v with Some q => Fin q | None => NaN end.

(** Truthiness of [updates.name]: [undefined] and the empty string are falsy. *)
Definition truthy (v : option string) : bool :=
  match v with Some s => negb (bool_decide (s = "")) | None => false end.

Definition allowedFields : list string :=
  ["madLudo"; "treasureHunt"; "spaceRoulette"; "cosmicJump"; "spaceColosseum";
   "name"].

Definition scoreFields : list string :=
  ["madLudo"; "treasureHunt"; "spaceRoulette"; "cosmicJump"; "spaceColosseum"].

(** [Object.assign(team, updateFields)], where [updateFields] keeps the
    entries of [updates] whose key is in [allowedFields]. *)
Definition assignAllowed (team : Team) (updates : PatchBody) : Team :=
  let team :=
    match body_name updates with
    | Some s => if includes allowedFields "name" then set_name s team else team
    | None => team
    end in
  foldl (λ team p, if includes allowedFields p.1 then setField p.1 p.2 team
                   else team)
        team (body_numbers updates).

(** [app.patch('/api/teams/:id', ...)]. *)
Definition patchTeam (id : string) (updates : PatchBody) : M Response :=
  try_catch
    (let scoreUpdates := List.filter (includes scoreFields) (keys updates) in
     let nameUpdate := body_name updates in
     match scoreUpdates, truthy nameUpdate with
     | [field], false =>
         (* scoreUpdates.length === 1 && !nameUpdate *)
         let value := toNumber (lookupNumber updates field) in
         updatedTeam ← await (atomicUpdateScore id field value None);
         debouncedBroadcast;;
         mret {| status := 200; body := TeamJson updatedTeam |}
     | _, _ =>
         team ← await (findById id);
         match team with
         | None => mret {| status := 404; body := ErrorJson "Team not found" |}
         | Some team =>
             saved ← await (save id team (assignAllowed team updates));
             debouncedBroadcast;;
             mret {| status := 200; body := TeamJson saved |}
         end
     end)
    (λ error,
       if includesStr (message_of error) "CONFLICT"
       then mret {| status := 409; body := ErrorJson (message_of error) |}
       else mret {| status := 500; body := ErrorJson (message_of error) |}).

(** [app.get('/api/teams', ...)]. *)
Definition getTeams : M Response :=
  try_catch
    (leaderboard ← await getLeaderboard;
     mret {| status := 200; body := LeaderboardJson leaderboard |})
    (λ error, mret {| status := 500; body := ErrorJson (message_of error) |}).

(** ** Scenarios *)

(** A server that has just started on the collection [d]. *)
Definition initState (d : Db) : State :=
  {| db := d; findFails := false; broadcastTimeout := None;
     activeConnections := 0; totalUpdatesPerSecond := 0; updateCounter := 0;
     timers := []; nextHandle := 0%nat; now := 0; emitted := [] |}.

(** A handler running from start to end while another one is suspended. *)
Definition during {A} (m : M A) : State → State := λ st, (run m st).2.

(** A team as the creation route leaves it: all scores 0, version 0. *)
Definition newTeam (n : string) (created : Z) : Team :=
  {| name := n; madLudo := 0; treasureHunt := 0; spaceRoulette := 0;
     cosmicJump := 0; spaceColosseum := 0; total := 0; version := 0;
     createdAt := created |}.

Definition oneTeam : State := initState {[ "a" := newTeam "Alpha" 1 ]}.

Definition five : Qc := Qc_of_Z 5.
Definition three : Qc := Qc_of_Z 3.

Definition setMadLudo (v : Qc) : UpdateScoreData :=
  {| teamId := "a"; field := "madLudo"; value := Fin v |}.

(** The entries of a response that carries a leaderboard. *)
Definition entriesOf (r : Completion Response) : list Entry :=
  match r with
  | Return {| status := _; body := LeaderboardJson l |} => l
  | _ => []
  end.

(** While the socket update "madLudo := 3" of team a is between its read
    and its conditional write, a PATCH with a name and "madLudo := 5" is
    served; then a reader asks for the leaderboard. *)
Definition raceWithSave : Completion Response * State :=
  let patch := during (patchTeam "a" {| body_name := Some "Alpha2";
                                        body_numbers := [("madLudo", five)] |}) in
  let '(_, st, _) := onUpdateScore "s1" (setMadLudo three) 0
                       [id; id; id; patch] oneTeam in
  run getTeams st.

(** What runs at the next [await] under schedule [k]. *)
Definition nextEnv (k : Sched) : State → State :=
  match k with
  | [] => id
  | e :: _ => e
  end.

(** The record that a commit of [newValue] to [field] writes, from the
    snapshot [read] that [findById] returned and the document [stored]
    that the conditional write finds. *)
Definition committed (field : string) (newValue : Qc) (read stored : Team) : Team :=
  incTotalVersion (newValue - getField field read)%Qc
    (setField field newValue stored).

(** The update of the design document (section 4.1), following its
    words: in one step, read the current version and field value,
    compare the version with [expectedVersion]; when equal set the field,
    add [delta = newValue - oldValue] to [total], increment [version] and
    return the new record; otherwise change nothing. *)
Inductive SpecResult :=
  | SpecRecord (t : Team)
  | ConflictError
  | NotFoundError.

Definition specUpdate (d : Db) (id field : string) (newValue : Qc)
    (expectedVersion : Z) : SpecResult * Db :=
  match d !! id with
  | None => (NotFoundError, d)
  | Some doc =>
      if decide (version doc = expectedVersion) then
        let oldValue := getField field doc in
        let delta := (newValue - oldValue)%Qc in
        let doc' := incTotalVersion delta (setField field newValue doc) in
        (SpecRecord doc', <[id := doc']> d)
      else (ConflictError, d)
  end.

(** A PATCH with a name and "madLudo := 5" for team a, served from start
    to end. *)
Definition patchBetween : State → State :=
  during (patchTeam "a" {| body_name := Some "Alpha2";
                           body_numbers := [("madLudo", five)] |}).

Definition set_version (v : Z) (t : Team) : Team :=
  {| name := name t; madLudo := madLudo t; treasureHunt := treasureHunt t;
     spaceRoulette := spaceRoulette t; cosmicJump := cosmicJump t;
     spaceColosseum := spaceColosseum t; total := total t;
     version := v; createdAt := createdAt t |}.

(** A PATCH body that renames a team. *)
Definition renameOnly : PatchBody :=
  {| body_name := Some "Beta"; body_numbers := [] |}.

(** The pending timers that would run [attemptUpdate] again. *)
Definition retriesPending (st : State) : list Timer :=
  List.filter (λ t, negb (isBroadcast t)) (timers st).

(** What has been emitted to one socket. *)
Definition sentTo (socket : string) (st : State) : list Message :=
  omap (λ e, match e with
             | SocketEmit s m => if decide (s = socket) then Some m else None
             | IoEmit _ => None
             end) (emitted st).

(** The state after [updateCounter++]. *)
Definition counted (st : State) : State :=
  set_counters (totalUpdatesPerSecond st) (updateCounter st + 1) st.

(** The update "madLudo := 3" of socket s1; another client's update of
    the same record commits between its read and its conditional write. *)
Definition conflictingUpdate : Completion unit * State * Sched :=
  onUpdateScore "s1" (setMadLudo three) 0
    [id; id; id; during (onUpdateScore "s2" (setMadLudo five) 0)] oneTeam.

(** Socket s1 connects and sends "madLudo := 3"; it disconnects between
    the read and the conditional write of that update. *)
Definition disconnectInFlight : Completion unit * State * Sched :=
  onUpdateScore "s1" (setMadLudo three) 0
    [id; id; id; during (onDisconnect "s1")]
    (during (onConnection "s1") oneTeam).


(** The ranked snapshot of a collection. *)
Definition ranked (d : Db) : list Entry :=
  assignRanks (merge_sort rankedBefore (map_to_list d)).

(** The document an entry was made from. *)
Definition entryDoc (e : Entry) : string * Team := (entry_id e, entry_team e).

(** Three updates commit.  The first schedules a broadcast, which fires
    100 ms later; the second commits while that broadcast is reading the
    collection; the third commits 10 ms after the broadcast was sent. *)
Definition overlappingBroadcast : State :=
  let st1 := during (onUpdateScore "s1" (setMadLudo three) 0) oneTeam in
  let st2 := tick 100 st1 in
  let '(_, st3, _) :=
    fireTimer 0 0 [id; id; during (onUpdateScore "s2" (setMadLudo five) 0)] st2 in
  let st4 := tick 10 st3 in
  during (onUpdateScore "s3" (setMadLudo three) 0) st4.

Definition ten : Qc := Qc_of_Z 10.
Definition twenty : Qc := Qc_of_Z 20.

(** Team A with total 10, created at time 1, and team B with total 20,
    created at time 2. *)
Definition teamA : Team :=
  {| name := "A"; madLudo := ten; treasureHunt := 0; spaceRoulette := 0;
     cosmicJump := 0; spaceColosseum := 0; total := ten; version := 0;
     createdAt := 1 |}.

Definition teamB : Team :=
  {| name := "B"; madLudo := twenty; treasureHunt := 0; spaceRoulette := 0;
     cosmicJump := 0; spaceColosseum := 0; total := twenty; version := 0;
     createdAt := 2 |}.

(** Another client's update of team a, served from start to end. *)
Definition otherCommit : State → State :=
  during (onUpdateScore "s2" (setMadLudo five) 0).

(** ** server.js: creating a team *)

(** [error.code === 11000]: MongoDB's duplicate-key error, whose message
    begins with E11000. *)
Definition isDuplicateKey (e : Exn) : bool :=
  match e with
  | Error m => String.prefix "E11000" m
  | ReferenceError _ => false
  end.

Section Create.
(** [String.prototype.trim]. *)
Variable trim : string → string.

(** [new Team({ name })]: the schema trims the name and fills in the
    defaults. *)
Definition newDocument (n : string) (created : Z) : Team :=
  {| name := trim n; madLudo := 0; treasureHunt := 0; spaceRoulette := 0;
     cosmicJump := 0; spaceColosseum := 0; total := 0; version := 0;
     createdAt := created |}.

(** [save()] of a new document under the identifier [id] that
    [new Team] gave it: validation, the hook ([this.isNew] holds, so
    [total] is computed), then one insert, which the unique indexes on
    [_id] and [name] can refuse. *)
Definition saveNew (id : string) (n : string) : M Team :=
  st ← get;
  let doc := newDocument n (now st) in
  if negb (validDoc doc) then throw (Error "Team validation failed")
  else
    let doc := set_total (scoreSum doc) doc in
    if bool_decide (is_Some (db st !! id)) || nameTaken (db st) id (name doc)
    then throw (Error "E11000 duplicate key error")
    else modify (set_db (insert id doc));; mret doc.

(** [app.post('/api/teams', ...)]; [name] is [req.body.name]
    ([None] when the body has none). *)
Definition postTeam (id : string) (name : option string) : M Response :=
  try_catch
    (match name with
     | None => mret {| status := 400; body := ErrorJson "Team name is required" |}
     | Some n =>
         if negb (truthy (Some n)) || bool_decide (trim n = "")
         then mret {| status := 400; body := ErrorJson "Team name is required" |}
         else
           team ← await (saveNew id (trim n));
           await broadcastLeaderboard;;
           mret {| status := 201; body := TeamJson team |}
     end)
    (λ error,
       if isDuplicateKey error
       then mret {| status := 400; body := ErrorJson "Team name already exists" |}
       else mret {| status := 500; body := ErrorJson (message_of error) |}).
End Create.

(** ** Editor.jsx: the connection quality shown to an editor

    [handlePong] classifies the round trip time of a ping and the update
    rate the server reported. *)
Inductive Quality :=
  | good
  | moderate
  | poor.

Definition connectionQuality (latency updatesPerSecond : Z) : Quality :=
  if bool_decide (latency > 1000) || bool_decide (updatesPerSecond > 15)
  then poor
  else if bool_decide (latency > 500) || bool_decide (updatesPerSecond > 8)
  then moderate
  else good.

(** [good] is better than [moderate], which is better than [poor]. *)
Definition badness (q : Quality) : Z :=
  match q with good => 0 | moderate => 1 | poor => 2 end.

(** What the editor makes of a [pong] that arrives [latency] after its
    ping. *)
Definition handlePong (latency : Z) (m : Message) : option Quality :=
  match m with
  | pong _ load => Some (connectionQuality latency (updatesPerSecond load))
  | _ => None
  end.

(** ** Runs of the server *)

(** The socket events of the server. *)
Inductive SocketEvent :=
  | Connect (socket : string)
  | Disconnect (socket : string)
  | Ping (socket : string)
  | UpdateScore (socket : string) (data : UpdateScoreData) (jitter : Z).

Definition onEvent (ev : SocketEvent) : M unit :=
  match ev with
  | Connect s => onConnection s
  | Disconnect s => onDisconnect s
  | Ping s => onPing s
  | UpdateScore s data jitter => onUpdateScore s data jitter
  end.

(** The events handled one after the other, each from start to end,
    for as long as the process lives.  Nothing catches what a listener
    throws and nothing handles the rejection of the async [updateScore]
    listener (there is no [catch] around [await attemptUpdate()] and no
    [unhandledRejection] handler): either ends the Node process, and no
    later event is handled ([None]). *)
Definition serve (evs : list SocketEvent) (st : State) : option State :=
  foldl (λ alive ev,
           match alive with
           | Some st =>
               match run (onEvent ev) st with
               | (Return _, st') => Some st'
               | (Throw _, _) => None
               end
           | None => None
           end) (Some st) evs.

(** The events that the collection [d] lets their handler serve to the
    end: every event but an [updateScore] that the store refuses (an
    unknown field, a value that is [NaN] or negative, an unknown team). *)
Definition accepted (d : Db) (ev : SocketEvent) : bool :=
  match ev with
  | UpdateScore _ data _ =>
      includes validFields (field data)
      && match value data with
         | NaN => false
         | Fin q => bool_decide (0 ≤ q)%Qc
         end
      && bool_decide (is_Some (d !! teamId data))
  | _ => true
  end.

Definition isConnect (ev : SocketEvent) : bool :=
  match ev with Connect _ => true | _ => false end.
Definition isDisconnect (ev : SocketEvent) : bool :=
  match ev with Disconnect _ => true | _ => false end.
Definition isUpdateScore (ev : SocketEvent) : bool :=
  match ev with UpdateScore _ _ _ => true | _ => false end.

(** Score updates of one record, stored one after the other. *)
Definition storeAll (id : string) (updates : list (string * Qc)) (st : State)
    : State :=
  foldl (λ st u, during (atomicUpdateScore id u.1 (Fin u.2) None) st) st updates.

(** Calls of [debouncedBroadcast], each [gap] milliseconds after the
    one before, with no timer firing in between. *)
Definition burst (gaps : list Z) (st : State) : State :=
  foldl (λ st gap, during debouncedBroadcast (tick gap st)) st gaps.

(** ** Whole scores

    The embedding computes with exact numbers, the code with doubles.
    The two agree on whole numbers up to [Number.MAX_SAFE_INTEGER]:
    each of them is a double, and a sum or a difference of two of them
    that is again one of them is computed exactly, by JavaScript and by
    MongoDB's [$inc] alike.  What is proved about [total] being the sum
    of the scores is therefore stated for whole scores that are small
    enough for five of them to stay within that bound. *)

Definition MAX_SAFE_INTEGER : Z := 2 ^ 53 - 1.

Definition wholeScore (q : Qc) : Prop :=
  ∃ z : Z, q = Qc_of_Z z ∧ (0 ≤ z)%Z ∧ (5 * z ≤ MAX_SAFE_INTEGER)%Z.

(** A property of each of the five scores of a record. *)
Definition allScores (P : Qc → Prop) (doc : Team) : Prop :=
  P (madLudo doc) ∧ P (treasureHunt doc) ∧ P (spaceRoulette doc)
  ∧ P (cosmicJump doc) ∧ P (spaceColosseum doc).

Definition wholeScores (doc : Team) : Prop := allScores wholeScore doc.

(** A record with whole scores whose [total] is their sum. *)
Definition exact (doc : Team) : Prop := wholeScores doc ∧ consistent doc.

Definition allExact (d : Db) : Prop := map_Forall (λ _ doc, exact doc) d.

(** A number that the validation of a score lets through only if it is
    a whole score. *)
Definition exactValue (v : Number) : Prop :=
  match v with
  | NaN => True
  | Fin q => (0 ≤ q)%Qc → wholeScore q
  end.

(** ** Invariants *)



(** The unique index on [name]: no two records carry the same name. *)
Definition uniqueNames (d : Db) : Prop :=
  ∀ i j ti tj, d !! i = Some ti → d !! j = Some tj → name ti = name tj → i = j.

(** Every record passes the schema's validators. *)
Definition allValid (d : Db) : Prop :=
  map_Forall (λ _ doc, validDoc doc = true) d.

(** Timer handles are distinct and older than the next one. *)
Definition wellTimed (st : State) : Prop :=
  NoDup (handle <$> timers st)
  ∧ Forall (λ t, (handle t < nextHandle st)%nat) (timers st).

(** [broadcastTimeout] holds the one pending broadcast, or is [null]
    when none is pending. *)
Definition tracked (st : State) : Prop :=
  wellTimed st
  ∧ ((broadcastTimeout st = None ∧ pendingBroadcasts st = [])
     ∨ (∃ t, broadcastTimeout st = Some (handle t)
             ∧ pendingBroadcasts st = [t])).

(** What has been emitted to every socket at once. *)
Definition broadcasts (st : State) : list Message :=
  omap (λ e, match e with
             | IoEmit m => Some m
             | SocketEmit _ _ => None
             end) (emitted st).

Definition sumZ (l : list Z) : Z := foldr Z.add 0 l.

(** The score field of a PATCH body that takes the atomic branch
    ([scoreUpdates.length === 1 && !nameUpdate]); [None] for a body that
    takes the save branch. *)
Definition singleScore (updates : PatchBody) : option string :=
  match List.filter (includes scoreFields) (keys updates),
        truthy (body_name updates) with
  | [field], false => Some field
  | _, _ => None
  end.

(** ** Requests served one after the other *)

(** What the server is asked to do: a socket event, one of the REST
    requests, a timer firing, the clock advancing, the rate sampler. *)
Inductive Request :=
  | SocketReq (ev : SocketEvent)
  | GetReq
  | PostReq (id : string) (name : option string)
  | PatchReq (id : string) (updates : PatchBody)
  | Fire (h : nat) (jitter : Z)
  | Elapse (ms : Z)
  | Sample.

Section Requests.
Variable trim : string → string.

Definition serveRequest (st : State) (r : Request) : State :=
  match r with
  | SocketReq ev => during (onEvent ev) st
  | GetReq => during getTeams st
  | PostReq id name => during (postTeam trim id name) st
  | PatchReq id updates => during (patchTeam id updates) st
  | Fire h jitter => during (fireTimer h jitter) st
  | Elapse ms => tick ms st
  | Sample => during sampleRate st
  end.

(** The requests served one after the other, each from start to end. *)
Definition serveAll (reqs : list Request) (st : State) : State :=
  foldl serveRequest st reqs.
End Requests.

(** What one request does to the collection: nothing, one record
    replaced, or one record added. *)
Inductive written (d : Db) : Db → Prop :=
  | written_nothing : written d d
  | written_update id old new :
      d !! id = Some old →
      (validDoc old = true → validDoc new = true) →
      name new = name old ∨ nameTaken d id (name new) = false →
      createdAt new = createdAt old →
      version new = version old ∨ version new = version old + 1 →
      written d (<[id:=new]> d)
  | written_insert id new :
      d !! id = None →
      validDoc new = true →
      nameTaken d id (name new) = false →
      written d (<[id:=new]> d).

(** [trim] on names whose white space is the space character. *)
Fixpoint dropSpaces (s : string) : string :=
  match s with
  | String " "%char s' => dropSpaces s'
  | _ => s
  end.

Definition trimSpaces (s : string) : string :=
  String.rev (dropSpaces (String.rev (dropSpaces s))).

(** A retry timer carries the value of the request that set it. *)
Definition exactTimer (t : Timer) : Prop :=
  match callback t with
  | BroadcastCb => True
  | AttemptUpdateCb _ data _ => exactValue (value data)
  end.

(** A state whose records have whole scores with [total] their sum,
    and whose retry timers hold such values. *)
Definition exactState (st : State) : Prop :=
  allExact (db st) ∧ Forall exactTimer (timers st).

(** A request whose numbers, where they can be stored as scores, are
    whole scores. *)
Definition exactRequest (r : Request) : Prop :=
  match r with
  | SocketReq (UpdateScore _ data _) => exactValue (value data)
  | PatchReq _ updates =>
      Forall (λ p, exactValue (Fin p.2)) (body_numbers updates)
  | _ => True
  end.

(** An identifier as [ObjectId] renders it, 24 hexadecimal digits,
    which [findById] casts without an error. *)
Definition isHexDigit (c : ascii) : bool :=
  let n := nat_of_ascii c in
  ((48 <=? n) && (n <=? 57) || (65 <=? n) && (n <=? 70)
   || (97 <=? n) && (n <=? 102))%nat.

Definition wellFormedId (id : string) : bool :=
  (String.length id =? 24)%nat && forallb isHexDigit (list_ascii_of_string id).

(** * Properties *)

(** ** Small checks of the embedding *)

Example conflict_message_recognised :
  includesStr CONFLICT_MESSAGE "CONFLICT" = true
  ∧ includesStr "Team not found" "CONFLICT" = false
  ∧ includesStr "Invalid field for update" "CONFLICT" = false
  ∧ includesStr "Invalid score value" "CONFLICT" = false.
Proof. by repeat split. Qed.

Example catch_block_scope :
  includes catchScope "field" = false
  ∧ includes catchScope "teamId" = false
  ∧ includes catchScope "retryCount" = true
  ∧ includes catchScope "error" = true.
Proof. by repeat split. Qed.

Example fields_checked :
  includes validFields "madLudo" = true
  ∧ includes validFields "spaceColosseum" = true
  ∧ includes validFields "foo" = false
  ∧ includes validFields "name" = false
  ∧ includes validFields "total" = false.
Proof. by repeat split. Qed.

Example first_update_of_a_new_team :
  ∃ t, run (atomicUpdateScore "a" "cosmicJump" (Fin five) None) oneTeam
       = (Return t, set_db (insert "a" t) oneTeam)
       ∧ cosmicJump t = five ∧ total t = five ∧ version t = 1.
Proof.
  eexists. split; [vm_compute; reflexivity|].
  split; [done|]. split; [by apply Qc_is_canon|done].
Qed.

(** ** The monad *)

(** Unfolding the binds of a handler applied to a state. *)
Ltac munfold := unfold mbind, mret, M_bind, M_ret; simpl.

Lemma yield_eq k st : yield k st = (Return tt, nextEnv k st, tail k).
Proof. by destruct k. Qed.

Lemma bind_eq {A B} (m : M A) (f : A → M B) k st :
  (m ≫= f) k st =
  match m k st with
  | (Return a, st', k') => f a k' st'
  | (Throw e, st', k') => (Throw e, st', k')
  end.
Proof. reflexivity. Qed.

Lemma await_eq {A} (op : M A) k st :
  await op k st = op (tail k) (nextEnv k st).
Proof. unfold await. rewrite bind_eq, yield_eq. reflexivity. Qed.

Lemma findById_eq id k st : findById id k st = (Return (db st !! id), st, k).
Proof. reflexivity. Qed.

Lemma findOneAndUpdate_hit id ver f v d k st doc :
  db st !! id = Some doc → version doc = ver →
  findOneAndUpdate id ver f v d k st =
  (Return (Some (incTotalVersion d (setField f v doc))),
   set_db (insert id (incTotalVersion d (setField f v doc))) st, k).
Proof.
  intros Hdoc Hver. unfold findOneAndUpdate.
  rewrite bind_eq. simpl. rewrite Hdoc.
  destruct (decide (version doc = ver)); [reflexivity | contradiction].
Qed.

Lemma findOneAndUpdate_miss id ver f v d k st :
  (∀ doc, db st !! id = Some doc → version doc ≠ ver) →
  findOneAndUpdate id ver f v d k st = (Return None, st, k).
Proof.
  intros Hmiss. unfold findOneAndUpdate. rewrite bind_eq. simpl.
  destruct (db st !! id) as [doc|] eqn:Hdoc; [|reflexivity].
  destruct (decide (version doc = ver)) as [Heq|]; [|reflexivity].
  by destruct (Hmiss doc eq_refl).
Qed.

(** ** [atomicUpdateScore], case by case *)

Section AtomicUpdateScore.
Variables (id f : string) (cv : option Z) (k : Sched) (st : State).

(** The state in which [findById] reads, and the one in which the
    conditional write takes effect. *)
Let atRead : State := nextEnv k st.
Let atWrite : State := nextEnv (tail k) atRead.

Lemma atomicUpdateScore_invalid_field v :
  includes validFields f = false →
  atomicUpdateScore id f v cv k st =
  (Throw (Error "Invalid field for update"), st, k).
Proof. intros Hf. unfold atomicUpdateScore. by rewrite Hf. Qed.

Lemma atomicUpdateScore_NaN :
  includes validFields f = true →
  atomicUpdateScore id f NaN cv k st =
  (Throw (Error "Invalid score value"), st, k).
Proof. intros Hf. unfold atomicUpdateScore. by rewrite Hf. Qed.

Lemma atomicUpdateScore_negative q :
  includes validFields f = true → (q < 0)%Qc →
  atomicUpdateScore id f (Fin q) cv k st =
  (Throw (Error "Invalid score value"), st, k).
Proof.
  intros Hf Hq. unfold atomicUpdateScore. rewrite Hf. simpl.
  by rewrite bool_decide_eq_true_2.
Qed.

Lemma atomicUpdateScore_not_found q :
  includes validFields f = true → (0 ≤ q)%Qc →
  db atRead !! id = None →
  atomicUpdateScore id f (Fin q) cv k st =
  (Throw (Error "Team not found"), atRead, tail k).
Proof.
  intros Hf Hq Hnone. unfold atomicUpdateScore. rewrite Hf. simpl.
  rewrite bool_decide_eq_false_2 by by apply Qcle_not_lt.
  rewrite bind_eq, await_eq, findById_eq. fold atRead. by rewrite Hnone.
Qed.

Lemma atomicUpdateScore_commit q read stored :
  includes validFields f = true → (0 ≤ q)%Qc →
  db atRead !! id = Some read →
  db atWrite !! id = Some stored →
  version stored = version read →
  atomicUpdateScore id f (Fin q) cv k st =
  (Return (committed f q read stored),
   set_db (insert id (committed f q read stored)) atWrite,
   tail (tail k)).
Proof.
  intros Hf Hq Hread Hstored Hver. unfold atomicUpdateScore. rewrite Hf. simpl.
  rewrite bool_decide_eq_false_2 by by apply Qcle_not_lt.
  rewrite bind_eq, await_eq, findById_eq. fold atRead. rewrite Hread.
  rewrite bind_eq, await_eq. fold atWrite.
  by rewrite (findOneAndUpdate_hit _ _ _ _ _ _ _ stored).
Qed.

Lemma atomicUpdateScore_conflict q read :
  includes validFields f = true → (0 ≤ q)%Qc →
  db atRead !! id = Some read →
  (∀ stored, db atWrite !! id = Some stored → version stored ≠ version read) →
  atomicUpdateScore id f (Fin q) cv k st =
  (Throw (Error CONFLICT_MESSAGE), atWrite, tail (tail k)).
Proof.
  intros Hf Hq Hread Hmiss. unfold atomicUpdateScore. rewrite Hf. simpl.
  rewrite bool_decide_eq_false_2 by by apply Qcle_not_lt.
  rewrite bind_eq, await_eq, findById_eq. fold atRead. rewrite Hread.
  rewrite bind_eq, await_eq. fold atWrite.
  by rewrite findOneAndUpdate_miss.
Qed.
End AtomicUpdateScore.

Lemma atomicUpdateScore_Return_inv id f v cv k st r st' k' :
  atomicUpdateScore id f v cv k st = (Return r, st', k') →
  ∃ q read stored,
    v = Fin q ∧ includes validFields f = true ∧ (0 ≤ q)%Qc
    ∧ db (nextEnv k st) !! id = Some read
    ∧ db (nextEnv (tail k) (nextEnv k st)) !! id = Some stored
    ∧ version stored = version read
    ∧ r = committed f q read stored
    ∧ st' = set_db (insert id r) (nextEnv (tail k) (nextEnv k st))
    ∧ k' = tail (tail k).
Proof.
  intros Hrun.
  destruct (includes validFields f) eqn:Hf;
    [|by rewrite atomicUpdateScore_invalid_field in Hrun].
  destruct v as [|q]; [by rewrite atomicUpdateScore_NaN in Hrun|].
  destruct (Qclt_le_dec q 0) as [Hneg|Hq];
    [by rewrite atomicUpdateScore_negative in Hrun|].
  destruct (db (nextEnv k st) !! id) as [read|] eqn:Hread;
    [|by rewrite atomicUpdateScore_not_found in Hrun].
  destruct (db (nextEnv (tail k) (nextEnv k st)) !! id) as [stored|] eqn:Hstored.
  - destruct (decide (version stored = version read)) as [Hver|Hver].
    + rewrite (atomicUpdateScore_commit _ _ _ _ _ _ read stored) in Hrun by done.
      injection Hrun as <- <- <-. by exists q, read, stored.
    + rewrite (atomicUpdateScore_conflict _ _ _ _ _ _ read) in Hrun; [done..|].
      intros s Hs. rewrite Hstored in Hs. by injection Hs as <-.
  - rewrite (atomicUpdateScore_conflict _ _ _ _ _ _ read) in Hrun; [done..|].
    intros s Hs. by rewrite Hstored in Hs.
Qed.

(** ** What [$set] and [$inc] touch *)

Lemma setField_name f v t : name (setField f v t) = name t.
Proof. unfold setField. by repeat case_decide. Qed.

Lemma setField_createdAt f v t : createdAt (setField f v t) = createdAt t.
Proof. unfold setField. by repeat case_decide. Qed.

Lemma setField_version f v t : version (setField f v t) = version t.
Proof. unfold setField. by repeat case_decide. Qed.

Lemma setField_total f v t : total (setField f v t) = total t.
Proof. unfold setField. by repeat case_decide. Qed.

Lemma getField_setField f v t : getField f (setField f v t) = v.
Proof. unfold getField, setField. by repeat case_decide. Qed.

Lemma setField_others f v t :
  includes validFields f = true →
  (f ≠ "madLudo" → madLudo (setField f v t) = madLudo t)
  ∧ (f ≠ "treasureHunt" → treasureHunt (setField f v t) = treasureHunt t)
  ∧ (f ≠ "spaceRoulette" → spaceRoulette (setField f v t) = spaceRoulette t)
  ∧ (f ≠ "cosmicJump" → cosmicJump (setField f v t) = cosmicJump t)
  ∧ (f ≠ "spaceColosseum" → spaceColosseum (setField f v t) = spaceColosseum t).
Proof.
  intros Hf. apply bool_decide_eq_true_1 in Hf.
  unfold validFields in Hf. rewrite !elem_of_cons, elem_of_nil in Hf.
  unfold setField.
  destruct Hf as [->|[->|[->|[->|[->|[]]]]]]; repeat case_decide;
    by repeat split.
Qed.

Lemma committed_version f q read stored :
  version (committed f q read stored) = version stored + 1.
Proof. unfold committed. simpl. by rewrite setField_version. Qed.

Lemma committed_total f q read stored :
  total (committed f q read stored) = (total stored + (q - getField f read))%Qc.
Proof. unfold committed. simpl. by rewrite setField_total. Qed.

Lemma committed_field f q read stored :
  getField f (committed f q read stored) = q.
Proof. unfold committed, incTotalVersion, getField. simpl.
  fold (getField f (setField f q stored)). apply getField_setField. Qed.

(** The sum of the scores after [$set] of one of them. *)
Lemma scoreSum_setField f v t :
  includes validFields f = true →
  scoreSum (setField f v t) = (scoreSum t + (v - getField f t))%Qc.
Proof.
  intros Hf. apply bool_decide_eq_true_1 in Hf.
  unfold validFields in Hf. rewrite !elem_of_cons, elem_of_nil in Hf.
  unfold scoreSum, getField, setField.
  destruct Hf as [->|[->|[->|[->|[->|[]]]]]]; repeat case_decide;
    try done; simpl; ring.
Qed.

Lemma scoreSum_incTotalVersion d t : scoreSum (incTotalVersion d t) = scoreSum t.
Proof. reflexivity. Qed.

(** A commit keeps [total] in step with the scores when the document it
    writes to still carries the score that was read. *)
Lemma committed_consistent f q read stored :
  includes validFields f = true →
  consistent stored → getField f stored = getField f read →
  consistent (committed f q read stored).
Proof.
  intros Hf Hc Hsame. unfold consistent in *.
  rewrite committed_total. unfold committed.
  rewrite scoreSum_incTotalVersion, scoreSum_setField by done.
  by rewrite Hc, Hsame.
Qed.

(** ** The store's update operation *)

(** C2, as the code has it.  [atomicUpdateScore] is a read followed by
    one conditional write, not a single step: [findById] returns a
    snapshot [read]; later the write finds the document [stored].  When
    [stored] carries the version of [read] the field is set to the new
    value, [newValue - oldValue] (old value as read) is added to
    [total], [version] is incremented and the new record is returned;
    otherwise nothing changes and the conflict error is thrown.  The
    delta and the version compared come from the same snapshot, and when
    the write still finds that snapshot the result is the single step of
    the design. *)
Theorem atomicUpdateScore_two_steps id f cv k st q read :
  includes validFields f = true → (0 ≤ q)%Qc →
  db (nextEnv k st) !! id = Some read →
  let atWrite := nextEnv (tail k) (nextEnv k st) in
  (∀ stored, db atWrite !! id = Some stored → version stored = version read →
     atomicUpdateScore id f (Fin q) cv k st =
       (Return (committed f q read stored),
        set_db (insert id (committed f q read stored)) atWrite, tail (tail k))
     ∧ getField f (committed f q read stored) = q
     ∧ total (committed f q read stored)
       = (total stored + (q - getField f read))%Qc
     ∧ version (committed f q read stored) = version stored + 1)
  ∧ ((∀ stored, db atWrite !! id = Some stored → version stored ≠ version read) →
     atomicUpdateScore id f (Fin q) cv k st =
       (Throw (Error CONFLICT_MESSAGE), atWrite, tail (tail k)))
  ∧ (db atWrite !! id = Some read →
     specUpdate (db atWrite) id f q (version read) =
       (SpecRecord (committed f q read read),
        <[id := committed f q read read]> (db atWrite))).
Proof.
  intros Hf Hq Hread atWrite. repeat split.
  - by apply atomicUpdateScore_commit.
  - apply committed_field.
  - apply committed_total.
  - apply committed_version.
  - intros Hmiss. by apply (atomicUpdateScore_conflict _ _ _ _ _ _ read).
  - intros Hsame. unfold specUpdate. rewrite Hsame.
    by destruct (decide (version read = version read)).
Qed.

Lemma atomicUpdateScore_two_steps_witness :
  atomicUpdateScore "a" "madLudo" (Fin three) None [] oneTeam =
    (Return (committed "madLudo" three (newTeam "Alpha" 1) (newTeam "Alpha" 1)),
     set_db (insert "a" (committed "madLudo" three (newTeam "Alpha" 1)
                           (newTeam "Alpha" 1))) oneTeam, [])
  ∧ atomicUpdateScore "a" "madLudo" (Fin three) None [id; otherCommit] oneTeam =
    (Throw (Error CONFLICT_MESSAGE), otherCommit oneTeam, [])
  ∧ specUpdate (db oneTeam) "a" "madLudo" three 0 =
    (SpecRecord (committed "madLudo" three (newTeam "Alpha" 1) (newTeam "Alpha" 1)),
     <["a" := committed "madLudo" three (newTeam "Alpha" 1) (newTeam "Alpha" 1)]>
       (db oneTeam)).
Proof.
  split; [|split].
  - refine (proj1 (proj1 (atomicUpdateScore_two_steps "a" "madLudo" None []
              oneTeam three (newTeam "Alpha" 1) _ _ _) (newTeam "Alpha" 1) _ _)).
    + reflexivity.
    + vm_compute. discriminate.
    + reflexivity.
    + reflexivity.
    + reflexivity.
  - refine (proj1 (proj2 (atomicUpdateScore_two_steps "a" "madLudo" None
              [id; otherCommit] oneTeam three (newTeam "Alpha" 1) _ _ _)) _).
    + reflexivity.
    + vm_compute. discriminate.
    + reflexivity.
    + intros stored Hstored. vm_compute in Hstored.
      injection Hstored as <-. discriminate.
  - refine (proj2 (proj2 (atomicUpdateScore_two_steps "a" "madLudo" None []
              oneTeam three (newTeam "Alpha" 1) _ _ _)) _).
    + reflexivity.
    + vm_compute. discriminate.
    + reflexivity.
    + reflexivity.
Defined.

(** C2 as stated fails: with a save-based PATCH served between the read
    and the conditional write, the write commits with a delta taken from
    the earlier read ([total] becomes 8), where a single step at that
    moment would have used the current field value ([total] 3). *)
Lemma update_not_one_step :
  ∃ t st' t',
    atomicUpdateScore "a" "madLudo" (Fin three) None [id; patchBetween] oneTeam
      = (Return t, st', [])
    ∧ specUpdate (db (patchBetween oneTeam)) "a" "madLudo" three 0
      = (SpecRecord t', <["a" := t']> (db (patchBetween oneTeam)))
    ∧ total t = Qc_of_Z 8 ∧ total t' = three ∧ madLudo t = three.
Proof.
  eexists _, _, _. split; [|split]; [vm_compute; reflexivity..|].
  repeat split; apply Qc_is_canon; reflexivity.
Qed.

(** C8, as the code has it.  The fourth argument is ignored: the result
    is the same for every supplied value.  Given a valid request for a
    record that exists when it is read, the conflict error is thrown,
    with nothing changed, exactly when the version found at the time of
    the conditional write is not the version the operation itself read;
    otherwise the operation commits. *)
Theorem conflict_decided_by_own_read id f cv k st q read :
  includes validFields f = true → (0 ≤ q)%Qc →
  db (nextEnv k st) !! id = Some read →
  let atWrite := nextEnv (tail k) (nextEnv k st) in
  (∀ cv', atomicUpdateScore id f (Fin q) cv' k st
          = atomicUpdateScore id f (Fin q) cv k st)
  ∧ (atomicUpdateScore id f (Fin q) cv k st
       = (Throw (Error CONFLICT_MESSAGE), atWrite, tail (tail k))
     ↔ ∀ stored, db atWrite !! id = Some stored → version stored ≠ version read)
  ∧ ((∃ stored, db atWrite !! id = Some stored ∧ version stored = version read)
     → ∃ r, atomicUpdateScore id f (Fin q) cv k st
            = (Return r, set_db (insert id r) atWrite, tail (tail k))).
Proof.
  intros Hf Hq Hread atWrite. split; [done|]. split; [split|].
  - intros Hrun stored Hstored Hver.
    by rewrite (atomicUpdateScore_commit _ _ _ _ _ _ read stored) in Hrun.
  - intros Hmiss. by apply (atomicUpdateScore_conflict _ _ _ _ _ _ read).
  - intros (stored & Hstored & Hver). eexists.
    by apply (atomicUpdateScore_commit _ _ _ _ _ _ read stored).
Qed.

Lemma conflict_decided_by_own_read_witness :
  atomicUpdateScore "a" "madLudo" (Fin three) (Some 99) [] oneTeam
    = atomicUpdateScore "a" "madLudo" (Fin three) (Some 0) [] oneTeam
  ∧ atomicUpdateScore "a" "madLudo" (Fin three) (Some 0) [id; otherCommit] oneTeam
    = (Throw (Error CONFLICT_MESSAGE), otherCommit oneTeam, [])
  ∧ ∃ r, atomicUpdateScore "a" "madLudo" (Fin three) (Some 0) [] oneTeam
         = (Return r, set_db (insert "a" r) oneTeam, []).
Proof.
  split; [|split].
  - refine (proj1 (conflict_decided_by_own_read "a" "madLudo" (Some 0) []
              oneTeam three (newTeam "Alpha" 1) _ _ _) (Some 99)).
    + reflexivity.
    + vm_compute. discriminate.
    + reflexivity.
  - refine (proj2 (proj1 (proj2 (conflict_decided_by_own_read "a" "madLudo"
              (Some 0) [id; otherCommit] oneTeam three (newTeam "Alpha" 1)
              _ _ _))) _).
    + reflexivity.
    + vm_compute. discriminate.
    + reflexivity.
    + intros stored Hstored. vm_compute in Hstored.
      injection Hstored as <-. discriminate.
  - refine (proj2 (proj2 (conflict_decided_by_own_read "a" "madLudo" (Some 0) []
              oneTeam three (newTeam "Alpha" 1) _ _ _)) _).
    + reflexivity.
    + vm_compute. discriminate.
    + reflexivity.
    + exists (newTeam "Alpha" 1). split; reflexivity.
Defined.

(** C8 as stated fails: the record has version 0, the caller supplies
    99, and the update commits. *)
Lemma stale_expected_version_commits :
  ∃ t st',
    atomicUpdateScore "a" "madLudo" (Fin five) (Some 99) [] oneTeam
      = (Return t, st', [])
    ∧ version <$> db oneTeam !! "a" = Some 0
    ∧ db st' !! "a" = Some t ∧ version t = 1 ∧ madLudo t = five.
Proof.
  eexists _, _. split; [vm_compute; reflexivity|]. by repeat split.
Qed.

(** C10.  A successful [atomicUpdateScore] writes one document: compared
    with the document [stored] it replaced, the name, the creation
    time and the four other scores are the same (only the field,
    [total] and [version] differ); the document stays under its
    identity; every other document of the collection, and the rest of
    the server state, are as they were when the write took effect. *)
Theorem atomicUpdateScore_frame id f v cv k st r st' k' :
  atomicUpdateScore id f v cv k st = (Return r, st', k') →
  let atWrite := nextEnv (tail k) (nextEnv k st) in
  ∃ stored,
    db atWrite !! id = Some stored
    ∧ db st' !! id = Some r
    ∧ name r = name stored
    ∧ createdAt r = createdAt stored
    ∧ (f ≠ "madLudo" → madLudo r = madLudo stored)
    ∧ (f ≠ "treasureHunt" → treasureHunt r = treasureHunt stored)
    ∧ (f ≠ "spaceRoulette" → spaceRoulette r = spaceRoulette stored)
    ∧ (f ≠ "cosmicJump" → cosmicJump r = cosmicJump stored)
    ∧ (f ≠ "spaceColosseum" → spaceColosseum r = spaceColosseum stored)
    ∧ (∀ id', id' ≠ id → db st' !! id' = db atWrite !! id')
    ∧ st' = set_db (λ _, db st') atWrite.
Proof.
  intros Hrun atWrite.
  apply atomicUpdateScore_Return_inv in Hrun
    as (q & read & stored & -> & Hf & Hq & Hread & Hstored & Hver & -> & -> & ->).
  exists stored. fold atWrite.
  destruct (setField_others f q stored Hf) as (H1 & H2 & H3 & H4 & H5).
  split; [done|]. split; [by simpl; rewrite lookup_insert_eq|].
  unfold committed. simpl.
  rewrite setField_name, setField_createdAt.
  repeat split; try done.
  intros id' Hne. by rewrite lookup_insert_ne.
Qed.

Lemma atomicUpdateScore_frame_witness :
  let r := committed "madLudo" three (newTeam "Alpha" 1) (newTeam "Alpha" 1) in
  let st' := set_db (insert "a" r) oneTeam in
  ∃ stored,
    db oneTeam !! "a" = Some stored
    ∧ db st' !! "a" = Some r
    ∧ name r = name stored
    ∧ createdAt r = createdAt stored
    ∧ ("madLudo" ≠ "madLudo" → madLudo r = madLudo stored)
    ∧ ("madLudo" ≠ "treasureHunt" → treasureHunt r = treasureHunt stored)
    ∧ ("madLudo" ≠ "spaceRoulette" → spaceRoulette r = spaceRoulette stored)
    ∧ ("madLudo" ≠ "cosmicJump" → cosmicJump r = cosmicJump stored)
    ∧ ("madLudo" ≠ "spaceColosseum" → spaceColosseum r = spaceColosseum stored)
    ∧ (∀ id', id' ≠ "a" → db st' !! id' = db oneTeam !! id')
    ∧ st' = set_db (λ _, db st') oneTeam.
Proof.
  exact (atomicUpdateScore_frame "a" "madLudo" (Fin three) None [] oneTeam
           _ _ [] eq_refl).
Defined.

Lemma atomicUpdateScore_Throw_inv id f v cv k st e st' k' :
  atomicUpdateScore id f v cv k st = (Throw e, st', k') →
  st' = st ∨ st' = nextEnv k st ∨ st' = nextEnv (tail k) (nextEnv k st).
Proof.
  intros Hrun.
  destruct (includes validFields f) eqn:Hf;
    [|rewrite atomicUpdateScore_invalid_field in Hrun by done;
      injection Hrun as _ <- _; by left].
  destruct v as [|q];
    [rewrite atomicUpdateScore_NaN in Hrun by done;
     injection Hrun as _ <- _; by left|].
  destruct (Qclt_le_dec q 0) as [Hneg|Hq];
    [rewrite atomicUpdateScore_negative in Hrun by done;
     injection Hrun as _ <- _; by left|].
  destruct (db (nextEnv k st) !! id) as [read|] eqn:Hread;
    [|rewrite atomicUpdateScore_not_found in Hrun by done;
      injection Hrun as _ <- _; by right; left].
  destruct (db (nextEnv (tail k) (nextEnv k st)) !! id) as [stored|] eqn:Hstored.
  - destruct (decide (version stored = version read)) as [Hver|Hver].
    + by rewrite (atomicUpdateScore_commit _ _ _ _ _ _ read stored) in Hrun.
    + rewrite (atomicUpdateScore_conflict _ _ _ _ _ _ read) in Hrun; [| done..|].
      * injection Hrun as _ <- _. by right; right.
      * intros s0 Hs. rewrite Hstored in Hs. by injection Hs as <-.
  - rewrite (atomicUpdateScore_conflict _ _ _ _ _ _ read) in Hrun; [| done..|].
    + injection Hrun as _ <- _. by right; right.
    + intros s0 Hs. by rewrite Hstored in Hs.
Qed.

(** ** [save()] *)

Lemma nameTaken_alter_version d id id' s ver :
  nameTaken (alter (set_version ver) id d) id' s = nameTaken d id' s.
Proof.
  unfold nameTaken. apply bool_decide_ext.
  rewrite !Exists_exists. split.
  - intros ([i t] & Hin & Hi & Hn). apply elem_of_map_to_list in Hin.
    simpl in *. destruct (decide (id = i)) as [->|Hne].
    + rewrite lookup_alter_eq in Hin.
      destruct (d !! i) as [t0|] eqn:Ht0; simpl in Hin; [|done].
      injection Hin as <-. exists (i, t0). split; [|done].
      by apply elem_of_map_to_list.
    + rewrite lookup_alter_ne in Hin by done.
      exists (i, t). split; [|done]. by apply elem_of_map_to_list.
  - intros ([i t] & Hin & Hi & Hn). apply elem_of_map_to_list in Hin.
    simpl in *. destruct (decide (id = i)) as [->|Hne].
    + exists (i, set_version ver t). split; [|done].
      apply elem_of_map_to_list. by rewrite lookup_alter_eq, Hin.
    + exists (i, t). split; [|done].
      apply elem_of_map_to_list. by rewrite lookup_alter_ne.
Qed.

(** Whether [save] succeeds, and what it returns, does not depend on the
    version of the stored document. *)
Lemma save_ignores_version id loaded doc k st ver :
  (save id loaded doc k (set_db (alter (set_version ver) id) st)).1.1
  = (save id loaded doc k st).1.1.
Proof.
  unfold save. destruct (validDoc doc); [|reflexivity]. simpl.
  rewrite !bind_eq. simpl. rewrite lookup_alter_eq.
  destruct (db st !! id) as [stored|]; [|reflexivity]. simpl.
  rewrite nameTaken_alter_version.
  by destruct (negb (bool_decide (name (preSave loaded doc) = name loaded))
               && nameTaken (db st) id (name (preSave loaded doc))).
Qed.

(** ** The version counter *)

(** C4, as the code has it.  A commit of the store's compare-and-swap
    ([atomicUpdateScore]) leaves the record with the version of the
    document it replaced plus one, and touches no other record; a failed
    call changes nothing.  The compare-and-swap is not the only writer:
    the name and multi-field branch of PATCH writes through [save],
    whose outcome does not depend on the stored version. *)
Theorem version_steps_by_one_on_cas id f v cv k st :
  let atWrite := nextEnv (tail k) (nextEnv k st) in
  (∀ r st' k', atomicUpdateScore id f v cv k st = (Return r, st', k') →
     ∃ stored, db atWrite !! id = Some stored
       ∧ db st' !! id = Some r
       ∧ version r = version stored + 1
       ∧ ∀ id', id' ≠ id → db st' !! id' = db atWrite !! id')
  ∧ (∀ e st' k', atomicUpdateScore id f v cv k st = (Throw e, st', k') →
     st' = st ∨ st' = nextEnv k st ∨ st' = atWrite)
  ∧ (∀ loaded doc ver,
     (save id loaded doc k (set_db (alter (set_version ver) id) st)).1.1
     = (save id loaded doc k st).1.1).
Proof.
  intros atWrite. split; [|split].
  - intros r st' k' Hrun.
    apply atomicUpdateScore_Return_inv in Hrun
      as (q & read & stored & -> & Hf & Hq & Hread & Hstored & Hver & -> & -> & ->).
    exists stored. fold atWrite. split; [done|].
    split; [by simpl; rewrite lookup_insert_eq|].
    split; [apply committed_version|].
    intros id' Hne. simpl. by rewrite lookup_insert_ne.
  - intros e st' k'. apply atomicUpdateScore_Throw_inv.
  - intros. apply save_ignores_version.
Qed.

Lemma version_steps_by_one_on_cas_witness :
  (∃ stored, db oneTeam !! "a" = Some stored
     ∧ db (set_db (insert "a" (committed "madLudo" three stored stored)) oneTeam)
         !! "a" = Some (committed "madLudo" three stored stored)
     ∧ version (committed "madLudo" three stored stored) = version stored + 1)
  ∧ (otherCommit oneTeam = oneTeam
     ∨ otherCommit oneTeam = oneTeam
     ∨ otherCommit oneTeam = otherCommit oneTeam).
Proof.
  split.
  - destruct (proj1 (version_steps_by_one_on_cas "a" "madLudo" (Fin three) None
                       [] oneTeam) _ _ _ eq_refl)
      as (stored & Hs & Hr & Hv & _).
    exists stored. injection Hs as <-. by repeat split.
  - exact (proj1 (proj2 (version_steps_by_one_on_cas "a" "madLudo" (Fin three)
                           None [id; otherCommit] oneTeam))
             (Error CONFLICT_MESSAGE) (otherCommit oneTeam) [] eq_refl).
Defined.

(** C4 as stated fails: a PATCH that renames team a commits (the stored
    name changes) and the version stays 0. *)
Lemma rename_commits_without_version_step :
  ∃ t st',
    run (patchTeam "a" renameOnly) oneTeam
      = (Return {| status := 200; body := TeamJson t |}, st')
    ∧ name <$> db oneTeam !! "a" = Some "Alpha"
    ∧ name <$> db st' !! "a" = Some "Beta"
    ∧ version <$> db oneTeam !! "a" = Some 0
    ∧ version <$> db st' !! "a" = Some 0.
Proof. eexists _, _. split; [vm_compute; reflexivity|]. by repeat split. Qed.

(** ** Handlers *)

Lemma try_catch_eq {A} (m : M A) (h : Exn → M A) k st :
  try_catch m h k st =
  match m k st with
  | (Return a, st', k') => (Return a, st', k')
  | (Throw e, st', k') => h e k' st'
  end.
Proof. reflexivity. Qed.

Lemma debouncedBroadcast_eq k st :
  debouncedBroadcast k st = (Return tt, during debouncedBroadcast st, k).
Proof.
  unfold during, run, debouncedBroadcast. rewrite !bind_eq. simpl.
  by destruct (broadcastTimeout st).
Qed.

Lemma debouncedBroadcast_state st :
  let st' := during debouncedBroadcast st in
  db st' = db st ∧ emitted st' = emitted st
  ∧ broadcastTimeout st' = Some (nextHandle st)
  ∧ timers st' =
      ((match broadcastTimeout st with
        | Some h => filter (λ t, handle t ≠ h) (timers st)
        | None => timers st
        end)
       ++ [{| handle := nextHandle st; due := now st + BROADCAST_DELAY;
              callback := BroadcastCb |}])%list.
Proof.
  unfold during, run, debouncedBroadcast, setTimeout, clearTimeout. munfold.
  by destruct (broadcastTimeout st).
Qed.

Section AttemptUpdate.
Variables (socket : string) (data : UpdateScoreData) (retryCount jitter : Z).
Variables (k : Sched) (st : State).

(** A conflict with retries left: the [catch] block stops at the
    unbound [field], before [setTimeout]. *)
Lemma attemptUpdate_conflict st1 k1 :
  atomicUpdateScore (teamId data) (field data) (value data) None
    (tail k) (nextEnv k st) = (Throw (Error CONFLICT_MESSAGE), st1, k1) →
  retryCount < MAX_RETRIES →
  attemptUpdate socket data retryCount jitter k st
  = (Throw (ReferenceError "field"), st1, k1).
Proof.
  intros Hrun Hlt. unfold attemptUpdate.
  rewrite try_catch_eq, bind_eq, await_eq, Hrun.
  by rewrite bool_decide_eq_true_2.
Qed.


Lemma attemptUpdate_success t st1 k1 :
  atomicUpdateScore (teamId data) (field data) (value data) None
    (tail k) (nextEnv k st) = (Return t, st1, k1) →
  attemptUpdate socket data retryCount jitter k st
  = (Return tt,
     add_emitted (SocketEmit socket
                    (updateSuccess (teamId data) (field data) (value data) t
                       (retryCount + 1)))
       (during debouncedBroadcast st1), k1).
Proof.
  intros Hrun. unfold attemptUpdate.
  rewrite try_catch_eq, !bind_eq, await_eq, Hrun.
  by rewrite bind_eq, debouncedBroadcast_eq.
Qed.
End AttemptUpdate.

Lemma onUpdateScore_eq socket data jitter k st :
  onUpdateScore socket data jitter k st
  = attemptUpdate socket data 0 jitter (tail k) (nextEnv k (counted st)).
Proof. unfold onUpdateScore. rewrite bind_eq. simpl. by rewrite await_eq. Qed.

(** Whatever makes the first attempt conflict, the handler ends there:
    it rejects with the [ReferenceError], in the state the conflict left,
    with no timer added and nothing emitted. *)
Lemma onUpdateScore_conflict socket data jitter k st st1 k1 :
  atomicUpdateScore (teamId data) (field data) (value data) None
    (tail (tail k)) (nextEnv (tail k) (nextEnv k (counted st)))
  = (Throw (Error CONFLICT_MESSAGE), st1, k1) →
  onUpdateScore socket data jitter k st
  = (Throw (ReferenceError "field"), st1, k1).
Proof.
  intros Hrun. rewrite onUpdateScore_eq.
  by apply attemptUpdate_conflict.
Qed.

(** ** The retry loop *)

(** C3, on the code.  The update of s1 meets a conflict on its first
    attempt.  The [catch] block increments [retryCount] and then reads
    [field], which is not in scope there: the handler rejects with a
    [ReferenceError] before [setTimeout] is reached.  One attempt has
    been made, no retry is pending, and nothing was sent to s1. *)
Theorem retry_never_scheduled :
  ∃ st,
    conflictingUpdate = (Throw (ReferenceError "field"), st, [])
    ∧ retriesPending st = []
    ∧ sentTo "s1" st = []
    ∧ madLudo <$> db st !! "a" = Some five
    ∧ version <$> db st !! "a" = Some 1.
Proof. eexists. split; [vm_compute; reflexivity|]. by repeat split. Qed.

(** ** Disconnection *)

Lemma onDisconnect_eq socket k st :
  onDisconnect socket k st
  = (Return tt, set_activeConnections (λ n, n - 1) st, k).
Proof. reflexivity. Qed.

(** The code has no cancellation.  The disconnect handler decrements
    [activeConnections] and does nothing else: the collection, the
    pending timers and the debouncer are as before.  An update whose
    first attempt is in flight when its socket disconnects, between the
    read and the conditional write, still commits, schedules the
    broadcast and calls [socket.emit] with the success message.  (What
    happens to a retry that is pending at a disconnection cannot be
    observed: no retry is ever pending, see [onUpdateScore_conflict].) *)
Lemma disconnect_abandons_nothing socket data jitter st q stored :
  includes validFields (field data) = true →
  value data = Fin q → (0 ≤ q)%Qc →
  db st !! teamId data = Some stored →
  (∀ k st0, onDisconnect socket k st0
            = (Return tt, set_activeConnections (λ n, n - 1) st0, k))
  ∧ let r := committed (field data) q stored stored in
    onUpdateScore socket data jitter
      [id; id; id; during (onDisconnect socket)] st
    = (Return tt,
       add_emitted
         (SocketEmit socket
            (updateSuccess (teamId data) (field data) (Fin q) r 1))
         (during debouncedBroadcast
            (set_db (insert (teamId data) r)
               (set_activeConnections (λ n, n - 1) (counted st)))),
       []).
Proof.
  intros Hf Hv Hq Hstored. split; [apply onDisconnect_eq|]. intros r.
  pose proof (atomicUpdateScore_commit (teamId data) (field data) None
                [id; during (onDisconnect socket)] (counted st) q stored stored
                Hf Hq Hstored Hstored eq_refl) as Hcommit.
  rewrite onUpdateScore_eq. simpl.
  erewrite attemptUpdate_success; [by rewrite Hv|].
  rewrite Hv. exact Hcommit.
Qed.

(** Socket s1 disconnects while its update is between the read and the
    conditional write: the connection count is back to 0, and the update
    still commits (version 1, madLudo 3) and calls [socket.emit] for
    s1. *)
Example commit_after_disconnect :
  ∃ st t,
    disconnectInFlight = (Return tt, st, [])
    ∧ activeConnections st = 0
    ∧ db st !! "a" = Some t ∧ version t = 1 ∧ madLudo t = three
    ∧ last (sentTo "s1" st)
      = Some (updateSuccess "a" "madLudo" (Fin three) t 1).
Proof. eexists _, _. split; [vm_compute; reflexivity|]. by repeat split. Qed.

(** ** Validation *)












(** ** The debouncer *)

Lemma getLeaderboard_eq k st :
  getLeaderboard k st =
  (if findFails (nextEnv k st) then Throw (Error "store unavailable")
   else Return (ranked (db (nextEnv k st))),
   nextEnv k st, tail k).
Proof.
  unfold getLeaderboard. rewrite try_catch_eq, bind_eq, await_eq.
  unfold findSorted. rewrite bind_eq. simpl.
  by destruct (findFails (nextEnv k st)).
Qed.

Lemma broadcastLeaderboard_eq k st :
  let atFind := nextEnv (tail k) (nextEnv k st) in
  broadcastLeaderboard k st =
  (Return tt,
   if findFails atFind then atFind
   else add_emitted (IoEmit (leaderboardUpdated (ranked (db atFind)))) atFind,
   tail (tail k)).
Proof.
  intros atFind. unfold broadcastLeaderboard.
  rewrite try_catch_eq, bind_eq, await_eq, getLeaderboard_eq. fold atFind.
  by destruct (findFails atFind).
Qed.

(** When the timer's callback ends, [broadcastTimeout] is [null],
    whether the snapshot could be read or not. *)
Lemma broadcastCallback_eq k st :
  let atFind := nextEnv (tail (tail k)) (nextEnv (tail k) (nextEnv k st)) in
  broadcastCallback k st =
  (Return tt,
   set_broadcastTimeout None
     (if findFails atFind then atFind
      else add_emitted (IoEmit (leaderboardUpdated (ranked (db atFind)))) atFind),
   tail (tail (tail k))).
Proof.
  intros atFind. unfold broadcastCallback.
  by rewrite try_catch_eq, bind_eq, await_eq, broadcastLeaderboard_eq.
Qed.

Lemma broadcastCallback_clears k st :
  ∃ st' k', broadcastCallback k st = (Return tt, st', k')
            ∧ broadcastTimeout st' = None.
Proof. eexists _, _. by rewrite broadcastCallback_eq. Qed.

(** While [broadcastTimeout] holds the one pending broadcast, a new
    call replaces it by one that is due [BROADCAST_DELAY] from now. *)
Lemma debouncedBroadcast_replaces st h t :
  broadcastTimeout st = Some h → pendingBroadcasts st = [t] → handle t = h →
  ∃ t', pendingBroadcasts (during debouncedBroadcast st) = [t']
        ∧ due t' = now st + BROADCAST_DELAY
        ∧ broadcastTimeout (during debouncedBroadcast st) = Some (handle t').
Proof.
  intros Hb Hp Hh.
  destruct (debouncedBroadcast_state st) as (_ & _ & Hb' & Ht').
  rewrite Hb in Ht'. unfold pendingBroadcasts in *. rewrite Ht'.
  exists {| handle := nextHandle st; due := now st + BROADCAST_DELAY;
            callback := BroadcastCb |}.
  split; [|done].
  rewrite List.filter_app. simpl.
  assert (List.filter isBroadcast (filter (λ t0, handle t0 ≠ h) (timers st)) = [])
    as ->; [|done].
  revert Hp. generalize (timers st) as l. induction l as [|x l IH]; [done|].
  simpl. rewrite filter_cons. destruct (isBroadcast x) eqn:Hx.
  - intros [= -> Hl]. rewrite decide_False by (by intros Hn; apply Hn).
    clear IH. induction l as [|y l IH]; [done|]. simpl in Hl.
    rewrite filter_cons. destruct (isBroadcast y) eqn:Hy; [done|].
    case_decide; [simpl; rewrite Hy|]; by apply IH.
  - intros Hl. case_decide; [simpl; rewrite Hx|]; by apply IH.
Qed.

(** C6, on the code.  The callback of the timer sets [broadcastTimeout]
    to [null] only after it has awaited the broadcast.  A commit that
    arrives while the broadcast reads the collection schedules timer 1
    and stores it in [broadcastTimeout]; the callback then overwrites
    that with [null].  The next commit finds [null], cancels nothing and
    schedules timer 2: two broadcasts are pending, and timer 1 keeps its
    old fire time. *)
Theorem two_broadcasts_pending :
  map (λ t, (handle t, due t)) (pendingBroadcasts overlappingBroadcast)
    = [(1%nat, 200); (2%nat, 210)]
  ∧ broadcastTimeout overlappingBroadcast = Some 2%nat
  ∧ now overlappingBroadcast = 110.
Proof. by vm_compute. Qed.

(** ** The ranked snapshot *)

#[global] Instance rankedBefore_total : Total rankedBefore.
Proof.
  intros a b. unfold rankedBefore.
  destruct (Qclt_le_dec (total b.2) (total a.2)) as [|Hab]; [by left; left|].
  destruct (Qclt_le_dec (total a.2) (total b.2)) as [|Hba]; [by right; left|].
  pose proof (Qcle_antisym _ _ Hab Hba) as Heq.
  destruct (Z.le_ge_cases (createdAt a.2) (createdAt b.2)).
  - left; right. done.
  - right; right. done.
Qed.

#[global] Instance rankedBefore_trans : Transitive rankedBefore.
Proof.
  intros a b c. unfold rankedBefore.
  intros [Hab|[Hab Hab']] [Hbc|[Hbc Hbc']].
  - left. by apply Qclt_trans with (total b.2).
  - left. by rewrite <-Hbc.
  - left. by rewrite Hab.
  - right. split; [congruence|lia].
Qed.

Lemma entryDoc_assignRanks l : entryDoc <$> assignRanks l = l.
Proof.
  unfold assignRanks. apply list_eq. intros i.
  rewrite list_lookup_fmap, list_lookup_imap.
  by destruct (l !! i) as [[]|].
Qed.

Lemma ranked_docs d :
  entryDoc <$> ranked d = merge_sort rankedBefore (map_to_list d).
Proof. apply entryDoc_assignRanks. Qed.

Lemma ranked_rank d i e :
  ranked d !! i = Some e → rank e = Z.of_nat i + 1.
Proof.
  unfold ranked, assignRanks. rewrite list_lookup_imap.
  destruct (merge_sort rankedBefore (map_to_list d) !! i); [|done].
  by intros [= <-].
Qed.

Lemma getTeams_eq k st :
  let atFind := nextEnv (tail k) (nextEnv k st) in
  findFails atFind = false →
  getTeams k st =
  (Return {| status := 200; body := LeaderboardJson (ranked (db atFind)) |},
   atFind, tail (tail k)).
Proof.
  intros atFind Hok. unfold getTeams.
  rewrite try_catch_eq, bind_eq, await_eq, getLeaderboard_eq.
  fold atFind. by rewrite Hok.
Qed.

Lemma onConnection_eq socket k st :
  let atFind := nextEnv k (set_activeConnections (λ n, n + 1) st) in
  findFails atFind = false →
  onConnection socket k st =
  (Return tt,
   add_emitted (SocketEmit socket (leaderboardUpdated (ranked (db atFind))))
     atFind, tail k).
Proof.
  intros atFind Hok. unfold onConnection. rewrite bind_eq. simpl.
  rewrite try_catch_eq, bind_eq, getLeaderboard_eq. fold atFind.
  by rewrite Hok.
Qed.

(** Two records, equal totals after the update: the older one leads. *)
Lemma ranked_pair idA idB (A B : Team) :
  idA ≠ idB → total A = total B → createdAt A < createdAt B →
  ranked {[ idA := A; idB := B ]}
  = [ {| entry_id := idA; entry_team := A; rank := 1 |};
      {| entry_id := idB; entry_team := B; rank := 2 |} ].
Proof.
  intros Hne Htot Hage. unfold ranked.
  assert (map_to_list ({[ idA := A; idB := B ]} : Db) ≡ₚ [(idA, A); (idB, B)])
    as Hperm.
  { by rewrite map_to_list_insert, map_to_list_singleton
      by by rewrite lookup_singleton_ne. }
  assert (merge_sort rankedBefore (map_to_list ({[ idA := A; idB := B ]} : Db))
          = [(idA, A); (idB, B)]) as ->; [|done].
  apply (StronglySorted_unique_strong rankedBefore).
  - intros x1 x2 Hx1 Hx2 H12 H21.
    rewrite merge_sort_Permutation, Hperm in Hx1.
    rewrite !elem_of_cons, elem_of_nil in Hx1, Hx2.
    unfold rankedBefore in H12, H21.
    destruct Hx1 as [->|[->|[]]], Hx2 as [->|[->|[]]]; simpl in *;
      try done; rewrite Htot in *;
      destruct H12 as [H12|[_ H12]], H21 as [H21|[_ H21]];
      try (by destruct (Qclt_not_eq _ _ H12));
      try (by destruct (Qclt_not_eq _ _ H21)); lia.
  - apply StronglySorted_merge_sort; apply _.
  - apply SSorted_cons; [apply SSorted_cons; constructor|].
    apply Forall_cons. split; [|constructor].
    right. simpl. split; [done|lia].
  - by rewrite merge_sort_Permutation.
Qed.

(** C9.  A snapshot is computed from the collection each time it is
    needed; no rank is kept in a record.  It holds every document once,
    in the order of [total] descending and, among equal totals, of
    creation time ascending, and the entry at position [i] (from 0) has
    rank [i + 1].  GET /api/teams answers with the snapshot of the
    collection as it is when the query runs, a new socket is sent it, and
    the debouncer's timer broadcasts it.  For team A (total 10, created
    first) and team B (total 20), setting a score of A to 10 more gives
    A the total 20, and the snapshot lists A, rank 1, before B, rank 2. *)
Theorem leaderboard_ranked (idA idB f socket : string) (A B : Team)
    (k : Sched) (st : State) :
  (entryDoc <$> ranked (db st) ≡ₚ map_to_list (db st)
   ∧ StronglySorted rankedBefore (entryDoc <$> ranked (db st))
   ∧ ∀ i e, ranked (db st) !! i = Some e → rank e = Z.of_nat i + 1)
  ∧ (let atFind := nextEnv (tail k) (nextEnv k st) in
     findFails atFind = false →
     getTeams k st =
     (Return {| status := 200; body := LeaderboardJson (ranked (db atFind)) |},
      atFind, tail (tail k)))
  ∧ (let atFind := nextEnv k (set_activeConnections (λ n, n + 1) st) in
     findFails atFind = false →
     onConnection socket k st =
     (Return tt,
      add_emitted (SocketEmit socket (leaderboardUpdated (ranked (db atFind))))
        atFind, tail k))
  ∧ (let atFind := nextEnv (tail (tail k)) (nextEnv (tail k) (nextEnv k st)) in
     findFails atFind = false →
     broadcastCallback k st =
     (Return tt,
      set_broadcastTimeout None
        (add_emitted (IoEmit (leaderboardUpdated (ranked (db atFind)))) atFind),
      tail (tail (tail k))))
  ∧ (idA ≠ idB → total A = ten → total B = twenty →
     createdAt A < createdAt B →
     includes validFields f = true → (0 ≤ getField f A)%Qc →
     ∃ A',
       run (atomicUpdateScore idA f (Fin (getField f A + ten)) None)
           (initState {[ idA := A; idB := B ]})
       = (Return A', initState {[ idA := A'; idB := B ]})
       ∧ total A' = twenty
       ∧ ranked {[ idA := A'; idB := B ]}
         = [ {| entry_id := idA; entry_team := A'; rank := 1 |};
             {| entry_id := idB; entry_team := B; rank := 2 |} ]).
Proof.
  split; [|split; [|split; [|split]]].
  - rewrite ranked_docs. split; [apply merge_sort_Permutation|].
    split; [apply StronglySorted_merge_sort; apply _|]. apply ranked_rank.
  - apply getTeams_eq.
  - apply onConnection_eq.
  - intros atFind Hok. rewrite broadcastCallback_eq. fold atFind. by rewrite Hok.
  - intros Hne HA HB Hage Hf Hpos.
    assert (0 ≤ getField f A + ten)%Qc as Hq.
    { apply Qcplus_nonneg_nonneg; [done|]. by vm_compute. }
    assert (total (committed f (getField f A + ten) A A) = twenty) as Htot.
    { rewrite committed_total, HA.
      replace (ten + (getField f A + ten - getField f A))%Qc
        with (ten + ten)%Qc by ring.
      apply Qc_is_canon. reflexivity. }
    exists (committed f (getField f A + ten) A A). split; [|split; [done|]].
    + unfold run.
      rewrite (atomicUpdateScore_commit _ _ _ _ _ _ A A);
        [|done|done|by simpl; rewrite lookup_insert_eq
         |by simpl; rewrite lookup_insert_eq|done].
      simpl. unfold set_db, initState. simpl. by rewrite insert_insert_eq.
    + apply ranked_pair; [done| |].
      * by rewrite Htot, HB.
      * unfold committed. simpl. by rewrite setField_createdAt.
Qed.

Lemma leaderboard_ranked_witness :
  (∃ A',
     run (atomicUpdateScore "a" "treasureHunt"
            (Fin (getField "treasureHunt" teamA + ten)) None)
         (initState {[ "a" := teamA; "b" := teamB ]})
     = (Return A', initState {[ "a" := A'; "b" := teamB ]})
     ∧ total A' = twenty
     ∧ ranked {[ "a" := A'; "b" := teamB ]}
       = [ {| entry_id := "a"; entry_team := A'; rank := 1 |};
           {| entry_id := "b"; entry_team := teamB; rank := 2 |} ])
  ∧ getTeams [] oneTeam =
    (Return {| status := 200; body := LeaderboardJson (ranked (db oneTeam)) |},
     oneTeam, [])
  ∧ onConnection "s1" [] oneTeam =
    (Return tt,
     add_emitted (SocketEmit "s1" (leaderboardUpdated (ranked (db oneTeam))))
       (set_activeConnections (λ n, n + 1) oneTeam), [])
  ∧ broadcastCallback [] oneTeam =
    (Return tt,
     set_broadcastTimeout None
       (add_emitted (IoEmit (leaderboardUpdated (ranked (db oneTeam)))) oneTeam),
     []).
Proof.
  split; [|split; [|split]].
  - refine (proj2 (proj2 (proj2 (proj2
              (leaderboard_ranked "a" "b" "treasureHunt" "s1" teamA teamB []
                 oneTeam)))) _ _ _ _ _ _).
    + discriminate.
    + reflexivity.
    + reflexivity.
    + reflexivity.
    + reflexivity.
    + vm_compute. discriminate.
  - exact (proj1 (proj2 (leaderboard_ranked "a" "b" "treasureHunt" "s1" teamA
                           teamB [] oneTeam)) eq_refl).
  - exact (proj1 (proj2 (proj2 (leaderboard_ranked "a" "b" "treasureHunt" "s1"
                                  teamA teamB [] oneTeam))) eq_refl).
  - exact (proj1 (proj2 (proj2 (proj2 (leaderboard_ranked "a" "b" "treasureHunt"
                                         "s1" teamA teamB [] oneTeam)))) eq_refl).
Defined.

(** ** The total *)

Lemma assignAllowed_total team updates :
  total (assignAllowed team updates) = total team.
Proof.
  unfold assignAllowed.
  assert (∀ l t, total (foldl (λ team p, if includes allowedFields p.1
                                        then setField p.1 p.2 team else team)
                          t l) = total t) as Hfold.
  { induction l as [|p l IH]; intros t; [done|]. simpl. rewrite IH.
    destruct (includes allowedFields p.1); [apply setField_total|done]. }
  rewrite Hfold. destruct (body_name updates); [|done].
  by destruct (includes allowedFields "name").
Qed.

(** Served alone, each write path keeps [total] equal to the sum of the
    scores: the commit of [atomicUpdateScore] when the document it
    writes to is the one it read ([committed_consistent]), and [save]
    when the stored document is the one that was loaded. *)
Lemma save_alone_consistent loaded updates :
  consistent loaded →
  consistent (writeModified loaded
                (preSave loaded (assignAllowed loaded updates)) loaded).
Proof.
  intros Hc. pose proof (assignAllowed_total loaded updates) as Htot.
  assert (∀ d, consistent d → consistent (writeModified loaded d loaded)) as Hw.
  { intros d Hd. unfold consistent, writeModified, scoreSum in *. simpl.
    assert (∀ (x y : Qc), (if decide (x = y) then y else x) = x) as Hpick
      by (by intros x y; case_decide).
    by rewrite !Hpick. }
  apply Hw. unfold preSave, scoresModified.
  case_bool_decide as Hmod; simpl; [|done].
  destruct Hmod as (H1 & H2 & H3 & H4 & H5).
  unfold consistent, scoreSum in *. congruence.
Qed.

(** C1, on the code.  A socket update "madLudo := 3" reads team a, a
    PATCH with a name and "madLudo := 5" is then served through [save]
    (which leaves [version] alone), and the conditional write of the
    socket update still matches the version it read.  It adds the delta
    of the stale read to [total]: the leaderboard served next shows
    [total] 8 for scores that sum to 3. *)
Theorem total_out_of_step_after_race :
  ∃ e,
    entriesOf raceWithSave.1 = [e]
    ∧ total (entry_team e) = Qc_of_Z 8
    ∧ scoreSum (entry_team e) = three
    ∧ ¬ consistent (entry_team e).
Proof.
  eexists. split; [vm_compute; reflexivity|].
  split; [by apply Qc_is_canon|]. split; [by apply Qc_is_canon|].
  unfold consistent. intros Heq. by apply (f_equal (λ q, Qnum (this q))) in Heq.
Qed.

(** * Further properties *)

(** ** Whole scores *)

Lemma wholeScore_of_Z z :
  (0 ≤ z)%Z → (5 * z ≤ MAX_SAFE_INTEGER)%Z → wholeScore (Qc_of_Z z).
Proof. intros Hz Hmax. by exists z. Qed.

Lemma wholeScore_0 : wholeScore 0.
Proof. rewrite <-Z2Qc_inj_0. by apply wholeScore_of_Z. Qed.

Lemma setField_allScores (P : Qc → Prop) f q t :
  P q → allScores P t → allScores P (setField f q t).
Proof.
  intros Hq (H1 & H2 & H3 & H4 & H5). unfold allScores, setField.
  repeat case_decide; simpl; by repeat split.
Qed.

Lemma setField_wholeScores f q t :
  wholeScore q → wholeScores t → wholeScores (setField f q t).
Proof. apply setField_allScores. Qed.

(** On a record with whole scores a commit of a whole score computes
    with whole numbers only: the record it writes has whole scores and
    a [total] that is their sum. *)
Lemma committed_exact f q read :
  includes validFields f = true → wholeScore q → exact read →
  exact (committed f q read read).
Proof.
  intros Hf Hq [Hwhole Hcons]. split; [|by apply committed_consistent].
  unfold committed.
  by apply (setField_wholeScores f q read Hq) in Hwhole.
Qed.

(** The [total] of such a record is a safe integer. *)
Lemma exact_total_safe doc :
  exact doc →
  ∃ z : Z, total doc = Qc_of_Z z ∧ (0 ≤ z ≤ MAX_SAFE_INTEGER)%Z.
Proof.
  intros [((z1 & E1 & ? & ?) & (z2 & E2 & ? & ?) & (z3 & E3 & ? & ?)
           & (z4 & E4 & ? & ?) & (z5 & E5 & ? & ?)) Hcons].
  exists (z1 + z2 + z3 + z4 + z5)%Z. split; [|lia].
  rewrite Hcons. unfold scoreSum. rewrite E1, E2, E3, E4, E5.
  by rewrite !Z2Qc_inj_add.
Qed.

(** ** Optimistic locking among writers that follow the protocol *)









(** ** Updates served one after the other *)

Lemma atomicUpdateScore_alone id f q cv st doc :
  includes validFields f = true → (0 ≤ q)%Qc → db st !! id = Some doc →
  atomicUpdateScore id f (Fin q) cv [] st
  = (Return (committed f q doc doc),
     set_db (insert id (committed f q doc doc)) st, []).
Proof.
  intros Hf Hq Hdoc.
  by apply (atomicUpdateScore_commit id f cv [] st q doc doc).
Qed.

Lemma storeAll_snoc id updates u st :
  storeAll id (updates ++ [u]) st
  = during (atomicUpdateScore id u.1 (Fin u.2) None) (storeAll id updates st).
Proof. unfold storeAll. by rewrite foldl_app. Qed.

(** X2.  Valid updates of one record, stored one after the other, all
    commit: the version grows by their number, the last value written
    to a field is the one it holds, and the name, the creation time and
    all other records are untouched.  When the values are whole scores
    and the record had whole scores with [total] their sum, it still has,
    and its [total] is a safe integer. *)
Theorem storeAll_counts id updates st doc :
  db st !! id = Some doc →
  Forall (λ u, includes validFields u.1 = true ∧ (0 ≤ u.2)%Qc) updates →
  ∃ doc',
    db (storeAll id updates st) !! id = Some doc'
    ∧ version doc' = version doc + Z.of_nat (length updates)
    ∧ name doc' = name doc ∧ createdAt doc' = createdAt doc
    ∧ (Forall (λ u, wholeScore u.2) updates → exact doc →
       exact doc'
       ∧ ∃ z : Z, total doc' = Qc_of_Z z ∧ (0 ≤ z ≤ MAX_SAFE_INTEGER)%Z)
    ∧ (∀ f q, last updates = Some (f, q) → getField f doc' = q)
    ∧ (∀ id', id' ≠ id → db (storeAll id updates st) !! id' = db st !! id').
Proof.
  intros Hdoc. induction updates as [|[f q] updates IH] using rev_ind.
  - intros _. exists doc. simpl. rewrite Z.add_0_r.
    do 4 (split; [done|]). split; [|by split].
    intros _ He. split; [done|]. by apply exact_total_safe.
  - intros Hvalid. apply Forall_app in Hvalid as [Hvalid Hu].
    apply Forall_singleton in Hu as [Hf Hq]. simpl in Hf, Hq.
    destruct (IH Hvalid) as (doc1 & Hdoc1 & Hver & Hname & Hcreated & Hcons
                             & _ & Hothers).
    rewrite storeAll_snoc. simpl. unfold during, run.
    rewrite (atomicUpdateScore_alone _ _ _ _ _ doc1) by done. simpl.
    exists (committed f q doc1 doc1). rewrite lookup_insert_eq.
    split; [done|]. rewrite committed_version, length_app. simpl.
    split; [lia|]. unfold committed at 1 2. simpl.
    rewrite setField_name, setField_createdAt.
    split; [done|]. split; [done|]. split; [|split].
    + intros Hwhole He. apply Forall_app in Hwhole as [Hwhole Hw].
      rewrite Forall_singleton in Hw. simpl in Hw.
      destruct (Hcons Hwhole He) as [He1 _].
      pose proof (committed_exact f q doc1 Hf Hw He1) as He'.
      split; [done|]. exact (exact_total_safe _ He').
    + intros f' q'. rewrite last_snoc. intros [= <- <-]. apply committed_field.
    + intros id' Hne. rewrite lookup_insert_ne by done. by apply Hothers.
Qed.

Lemma storeAll_counts_witness :
  ∃ doc',
    db (storeAll "a" [("madLudo", three); ("cosmicJump", five);
                      ("madLudo", five)] oneTeam) !! "a" = Some doc'
    ∧ version doc' = 0 + Z.of_nat 3
    ∧ exact doc'
    ∧ (∀ f q, last [("madLudo", three); ("cosmicJump", five); ("madLudo", five)]
              = Some (f, q) → getField f doc' = q).
Proof.
  assert (wholeScore three ∧ wholeScore five) as [H3 H5]
    by (split; by apply wholeScore_of_Z).
  destruct (storeAll_counts "a" [("madLudo", three); ("cosmicJump", five);
                                 ("madLudo", five)] oneTeam (newTeam "Alpha" 1))
    as (doc' & Hdoc' & Hver & _ & _ & Hexact & Hlast & _).
  - reflexivity.
  - repeat constructor; vm_compute; discriminate.
  - exists doc'. split; [done|]. split; [done|]. split; [|done].
    apply Hexact; [by repeat constructor|].
    split; [|done]. repeat split; apply wholeScore_0.
Defined.

(** ** A successful update over the socket *)

Lemma sentTo_add_socket s s' m st :
  sentTo s (add_emitted (SocketEmit s' m) st)
  = (sentTo s st ++ (if decide (s' = s) then [m] else []))%list.
Proof.
  unfold sentTo, add_emitted. simpl. rewrite omap_app. simpl.
  by case_decide.
Qed.

Lemma broadcasts_add_socket s m st :
  broadcasts (add_emitted (SocketEmit s m) st) = broadcasts st.
Proof.
  unfold broadcasts, add_emitted. simpl. rewrite omap_app. simpl.
  by rewrite app_nil_r.
Qed.

(** X3.  A valid update of an existing record, served without
    interruption, commits, sends exactly one message, the success with
    the committed record and [attempts] 1, to the socket it came from
    and to no other, broadcasts nothing yet, counts the request, and
    leaves a broadcast pending that is due [BROADCAST_DELAY] later. *)
Theorem update_reported_to_sender socket data jitter st q doc :
  includes validFields (field data) = true →
  value data = Fin q → (0 ≤ q)%Qc →
  db st !! teamId data = Some doc →
  let st' := during (onUpdateScore socket data jitter) st in
  let r := committed (field data) q doc doc in
  db st' = <[teamId data := r]> (db st)
  ∧ sentTo socket st'
    = (sentTo socket st
       ++ [updateSuccess (teamId data) (field data) (Fin q) r 1])%list
  ∧ (∀ s', s' ≠ socket → sentTo s' st' = sentTo s' st)
  ∧ broadcasts st' = broadcasts st
  ∧ updateCounter st' = updateCounter st + 1
  ∧ broadcastTimeout st' = Some (nextHandle st)
  ∧ {| handle := nextHandle st; due := now st + BROADCAST_DELAY;
       callback := BroadcastCb |} ∈ timers st'.
Proof.
  intros Hf Hv Hq Hdoc st' r. subst st'. unfold during, run.
  rewrite onUpdateScore_eq. simpl.
  rewrite (attemptUpdate_success _ _ _ _ _ _ r
             (set_db (insert (teamId data) r) (counted st)) []);
    [|rewrite Hv; by apply (atomicUpdateScore_alone _ _ _ _ (counted st) doc)].
  simpl.
  destruct (debouncedBroadcast_state
              (set_db (insert (teamId data) r) (counted st)))
    as (Hdb & Hem & Hbt & Htimers).
  split; [by rewrite Hdb|].
  rewrite Hv. split; [|split; [|split; [|split; [|split]]]].
  - rewrite sentTo_add_socket, decide_True by done. unfold sentTo. by rewrite Hem.
  - intros s' Hne. rewrite sentTo_add_socket, decide_False by done.
    rewrite app_nil_r. unfold sentTo. by rewrite Hem.
  - rewrite broadcasts_add_socket. unfold broadcasts. by rewrite Hem.
  - unfold during, run, debouncedBroadcast, setTimeout, clearTimeout. munfold.
    by destruct (broadcastTimeout st).
  - done.
  - simpl. rewrite Htimers. apply elem_of_app. right. apply elem_of_cons. by left.
Qed.

Lemma update_reported_to_sender_witness :
  let st' := during (onUpdateScore "s1" (setMadLudo three) 0) oneTeam in
  let r := committed "madLudo" three (newTeam "Alpha" 1) (newTeam "Alpha" 1) in
  db st' = <["a" := r]> (db oneTeam)
  ∧ sentTo "s1" st'
    = (sentTo "s1" oneTeam ++ [updateSuccess "a" "madLudo" (Fin three) r 1])%list
  ∧ updateCounter st' = updateCounter oneTeam + 1.
Proof.
  destruct (update_reported_to_sender "s1" (setMadLudo three) 0 oneTeam three
              (newTeam "Alpha" 1)) as (Hdb & Hsent & _ & _ & Hcount & _).
  - reflexivity.
  - reflexivity.
  - vm_compute. discriminate.
  - reflexivity.
  - by repeat split.
Defined.

(** ** The debouncer while no commit lands during a broadcast *)

Lemma debouncedBroadcast_clock st :
  nextHandle (during debouncedBroadcast st) = S (nextHandle st)
  ∧ now (during debouncedBroadcast st) = now st
  ∧ findFails (during debouncedBroadcast st) = findFails st.
Proof.
  unfold during, run, debouncedBroadcast, setTimeout, clearTimeout. munfold.
  by destruct (broadcastTimeout st).
Qed.

Lemma wellTimed_clear st h next :
  wellTimed st → (nextHandle st ≤ next)%nat →
  wellTimed (set_timers (filter (λ t, handle t ≠ h) (timers st)) next st).
Proof.
  intros [Hnd Hlt] Hle. split; simpl.
  - revert Hnd. generalize (timers st). induction l as [|x l IH]; [done|].
    rewrite fmap_cons, NoDup_cons. intros [Hx Hl]. rewrite filter_cons.
    case_decide; [|by apply IH]. rewrite fmap_cons, NoDup_cons.
    split; [|by apply IH]. intros Hin. apply Hx.
    apply list_elem_of_fmap in Hin as (y & -> & Hy).
    apply list_elem_of_fmap. exists y. split; [done|].
    by apply list_elem_of_filter in Hy as [_ ?].
  - apply Forall_forall. intros x Hx. apply list_elem_of_filter in Hx as [_ Hx].
    rewrite Forall_forall in Hlt. specialize (Hlt x Hx). lia.
Qed.

Lemma wellTimed_debouncedBroadcast st :
  wellTimed st → wellTimed (during debouncedBroadcast st).
Proof.
  intros Hwt.
  destruct (debouncedBroadcast_state st) as (_ & _ & _ & Htimers).
  destruct (debouncedBroadcast_clock st) as (Hnext & _ & _).
  assert (wellTimed
            (set_timers
               (match broadcastTimeout st with
                | Some h => filter (λ t, handle t ≠ h) (timers st)
                | None => timers st
                end) (nextHandle st) st)) as [Hnd Hlt].
  { destruct (broadcastTimeout st); [by apply wellTimed_clear|].
    destruct Hwt. by split. }
  simpl in Hnd, Hlt. split; rewrite Htimers, ?Hnext.
  - rewrite fmap_app. simpl. apply NoDup_app. split; [done|].
    split; [|apply NoDup_singleton].
    intros h Hin Hh. apply list_elem_of_singleton in Hh as ->.
    apply list_elem_of_fmap in Hin as (y & Hy & Hin).
    rewrite Forall_forall in Hlt. specialize (Hlt y Hin). lia.
  - apply Forall_app. split.
    + eapply Forall_impl; [exact Hlt|]. simpl. intros; lia.
    + apply Forall_singleton. simpl. lia.
Qed.

Lemma pending_after_clear l t :
  List.filter isBroadcast l = [t] →
  List.filter isBroadcast (filter (λ t0, handle t0 ≠ handle t) l) = [].
Proof.
  induction l as [|x l IH]; [done|]. simpl. rewrite filter_cons.
  destruct (isBroadcast x) eqn:Hx.
  - intros [= -> Hl]. rewrite decide_False by (by intros Hn; apply Hn).
    clear IH. induction l as [|y l IH]; [done|]. simpl in Hl.
    rewrite filter_cons. destruct (isBroadcast y) eqn:Hy; [done|].
    case_decide; [simpl; rewrite Hy|]; by apply IH.
  - intros Hl. case_decide; [simpl; rewrite Hx|]; by apply IH.
Qed.

Lemma tracked_debouncedBroadcast st :
  tracked st →
  tracked (during debouncedBroadcast st)
  ∧ ∃ t, pendingBroadcasts (during debouncedBroadcast st) = [t]
         ∧ due t = now st + BROADCAST_DELAY
         ∧ broadcastTimeout (during debouncedBroadcast st) = Some (handle t).
Proof.
  intros [Hwt Hcase].
  assert (∃ t, pendingBroadcasts (during debouncedBroadcast st) = [t]
               ∧ due t = now st + BROADCAST_DELAY
               ∧ broadcastTimeout (during debouncedBroadcast st)
                 = Some (handle t)) as Hone.
  { destruct (debouncedBroadcast_state st) as (_ & _ & Hbt & Htimers).
    exists {| handle := nextHandle st; due := now st + BROADCAST_DELAY;
              callback := BroadcastCb |}.
    split; [|done]. unfold pendingBroadcasts in *. rewrite Htimers.
    rewrite List.filter_app. simpl.
    destruct Hcase as [[-> ->]|(t & -> & Hp)]; [done|].
    by rewrite (pending_after_clear _ t). }
  split; [|done]. split; [by apply wellTimed_debouncedBroadcast|].
  right. destruct Hone as (t & Hp & _ & Hbt). by exists t.
Qed.

Lemma tracked_tick gap st : tracked st → tracked (tick gap st).
Proof. by intros [[Hnd Hlt] Hcase]. Qed.

Lemma burst_snoc gaps gap st :
  burst (gaps ++ [gap]) st
  = during debouncedBroadcast (tick gap (burst gaps st)).
Proof. unfold burst. by rewrite foldl_app. Qed.

Lemma burst_tracked gaps st :
  tracked st →
  tracked (burst gaps st) ∧ now (burst gaps st) = now st + sumZ gaps.
Proof.
  intros Htr. induction gaps as [|gap gaps [IHt IHn]] using rev_ind.
  - simpl. split; [done|]. unfold sumZ. simpl. lia.
  - rewrite burst_snoc. split.
    + by apply tracked_debouncedBroadcast, tracked_tick.
    + destruct (debouncedBroadcast_clock (tick gap (burst gaps st)))
        as (_ & -> & _).
      simpl. rewrite IHn. unfold sumZ. rewrite foldr_app. simpl.
      clear. induction gaps as [|x l IH]; simpl; lia.
Qed.

(** X4.  While [broadcastTimeout] holds the pending broadcast (or none
    is pending), any number of calls of [debouncedBroadcast] with no
    timer firing in between leaves exactly one broadcast pending, due
    [BROADCAST_DELAY] after the last call, and [broadcastTimeout] holds
    it. *)
Theorem burst_leaves_one_broadcast gaps gap st :
  tracked st →
  ∃ t, pendingBroadcasts (burst (gaps ++ [gap]) st) = [t]
       ∧ due t = now st + sumZ (gaps ++ [gap]) + BROADCAST_DELAY
       ∧ broadcastTimeout (burst (gaps ++ [gap]) st) = Some (handle t)
       ∧ tracked (burst (gaps ++ [gap]) st).
Proof.
  intros Htr. destruct (burst_tracked gaps st Htr) as [Ht Hn].
  destruct (burst_tracked (gaps ++ [gap]) st Htr) as [Ht' Hn'].
  rewrite burst_snoc in *.
  destruct (tracked_debouncedBroadcast (tick gap (burst gaps st)))
    as (_ & t & Hp & Hdue & Hbt); [by apply tracked_tick|].
  exists t. split; [done|]. split; [|done].
  rewrite Hdue. simpl. rewrite Hn. unfold sumZ. rewrite foldr_app. simpl.
  clear. induction gaps as [|x l IH]; simpl; lia.
Qed.

Lemma tracked_initState d : tracked (initState d).
Proof. split; [split; constructor|]. by left. Qed.

Lemma burst_leaves_one_broadcast_witness :
  ∃ t, pendingBroadcasts (burst ([0; 30] ++ [40]) oneTeam) = [t]
       ∧ due t = now oneTeam + sumZ ([0; 30] ++ [40]) + BROADCAST_DELAY
       ∧ broadcastTimeout (burst ([0; 30] ++ [40]) oneTeam) = Some (handle t)
       ∧ tracked (burst ([0; 30] ++ [40]) oneTeam).
Proof.
  apply burst_leaves_one_broadcast. apply tracked_initState.
Defined.

Lemma find_by_handle (l : list Timer) t :
  NoDup (handle <$> l) → t ∈ l →
  List.find (λ t0, bool_decide (handle t0 = handle t)) l = Some t.
Proof.
  induction l as [|x l IH]; [by intros _ ?%elem_of_nil|].
  rewrite fmap_cons, NoDup_cons. intros [Hx Hl] Hin. simpl.
  apply elem_of_cons in Hin as [->|Hin].
  - by rewrite bool_decide_eq_true_2.
  - rewrite bool_decide_eq_false_2; [by apply IH|].
    intros Heq. apply Hx. rewrite Heq. apply list_elem_of_fmap. by exists t.
Qed.

Lemma pending_elem st t :
  pendingBroadcasts st = [t] → t ∈ timers st ∧ callback t = BroadcastCb.
Proof.
  intros Hp.
  assert (In t (List.filter isBroadcast (timers st))) as Hin
    by (unfold pendingBroadcasts in Hp; rewrite Hp; by left).
  apply filter_In in Hin as [Hin Hb]. split; [by apply list_elem_of_In|].
  unfold isBroadcast in Hb. by destruct (callback t).
Qed.

(** The state in which the callback of the broadcast timer [t] starts. *)
Lemma fireTimer_broadcast st t jitter k :
  wellTimed st → pendingBroadcasts st = [t] → (due t ≤ now st)%Z →
  fireTimer (handle t) jitter k st
  = broadcastCallback k
      (set_timers (filter (λ t0, handle t0 ≠ handle t) (timers st))
         (nextHandle st) st).
Proof.
  intros [Hnd _] Hp Hdue. destruct (pending_elem st t Hp) as [Hin Hcb].
  unfold fireTimer. rewrite bind_eq. simpl.
  rewrite find_by_handle by done. rewrite bool_decide_eq_true_2 by done.
  rewrite bind_eq. simpl. by rewrite Hcb.
Qed.

Lemma fireTimer_alone st t jitter :
  wellTimed st → pendingBroadcasts st = [t] → (due t ≤ now st)%Z →
  let cleared := set_timers (filter (λ t0, handle t0 ≠ handle t) (timers st))
                   (nextHandle st) st in
  during (fireTimer (handle t) jitter) st
  = set_broadcastTimeout None
      (if findFails st then cleared
       else add_emitted (IoEmit (leaderboardUpdated (ranked (db st)))) cleared).
Proof.
  intros Hwt Hp Hdue cleared. unfold during, run.
  by rewrite fireTimer_broadcast, broadcastCallback_eq.
Qed.

(** X5.  With [broadcastTimeout] holding the one pending broadcast,
    the timer firing when it is due, and nothing else running before
    its callback ends: the snapshot of the collection as it is then is
    emitted to all sockets once (nothing is emitted when the query
    fails), no broadcast is left pending, [broadcastTimeout] is [null],
    and the collection is not touched. *)
Theorem broadcast_fires_once st t jitter :
  tracked st → pendingBroadcasts st = [t] → (due t ≤ now st)%Z →
  let st' := during (fireTimer (handle t) jitter) st in
  broadcasts st'
    = (broadcasts st
       ++ (if findFails st then []
           else [leaderboardUpdated (ranked (db st))]))%list
  ∧ pendingBroadcasts st' = []
  ∧ broadcastTimeout st' = None
  ∧ db st' = db st
  ∧ (∀ s, sentTo s st' = sentTo s st)
  ∧ tracked st'.
Proof.
  intros [Hwt Hcase] Hp Hdue st'. subst st'.
  rewrite fireTimer_alone by done.
  assert (wellTimed
            (set_timers (filter (λ t0, handle t0 ≠ handle t) (timers st))
               (nextHandle st) st)) as Hwt' by by apply wellTimed_clear.
  assert (List.filter isBroadcast
            (filter (λ t0, handle t0 ≠ handle t) (timers st)) = []) as Hnone
    by by apply pending_after_clear.
  destruct (findFails st); simpl.
  - rewrite app_nil_r. repeat split; try done; try apply Hwt'. by left.
  - unfold broadcasts, sentTo. simpl. rewrite !omap_app. simpl.
    repeat split; try done; try apply Hwt'.
    + intros s. by rewrite omap_app, app_nil_r.
    + by left.
Qed.

Lemma broadcast_fires_once_witness :
  let st := tick 100 (during debouncedBroadcast oneTeam) in
  let st' := during (fireTimer 0 0) st in
  broadcasts st'
    = (broadcasts st ++ [leaderboardUpdated (ranked (db st))])%list
  ∧ pendingBroadcasts st' = []
  ∧ broadcastTimeout st' = None.
Proof.
  intros st st'.
  destruct (broadcast_fires_once st
              {| handle := 0; due := 100; callback := BroadcastCb |} 0)
    as (Hb & Hp & Hbt & _).
  - apply tracked_tick, tracked_debouncedBroadcast, tracked_initState.
  - reflexivity.
  - vm_compute. discriminate.
  - by repeat split.
Defined.

(** ** From a commit to the broadcast *)

Lemma onUpdateScore_alone socket data jitter st q doc :
  includes validFields (field data) = true →
  value data = Fin q → (0 ≤ q)%Qc →
  db st !! teamId data = Some doc →
  let r := committed (field data) q doc doc in
  during (onUpdateScore socket data jitter) st
  = add_emitted
      (SocketEmit socket (updateSuccess (teamId data) (field data) (Fin q) r 1))
      (during debouncedBroadcast
         (set_db (insert (teamId data) r) (counted st))).
Proof.
  intros Hf Hv Hq Hdoc r. unfold during at 1, run.
  rewrite onUpdateScore_eq. simpl.
  rewrite (attemptUpdate_success _ _ _ _ _ _ r
             (set_db (insert (teamId data) r) (counted st)) []);
    [by rewrite Hv|].
  rewrite Hv. by apply (atomicUpdateScore_alone _ _ _ _ (counted st) doc).
Qed.

(** X6.  From a state with no broadcast pending: a valid update is
    served, [BROADCAST_DELAY] passes, the timer fires.  Then exactly one
    broadcast has been added, it is the snapshot of the collection with
    the committed record in it, and no broadcast is pending. *)
Theorem commit_reaches_next_broadcast socket data jitter st q doc :
  includes validFields (field data) = true →
  value data = Fin q → (0 ≤ q)%Qc →
  db st !! teamId data = Some doc →
  wellTimed st → broadcastTimeout st = None → pendingBroadcasts st = [] →
  findFails st = false →
  let r := committed (field data) q doc doc in
  let st1 := during (onUpdateScore socket data jitter) st in
  let st2 := during (fireTimer (nextHandle st) jitter) (tick BROADCAST_DELAY st1) in
  broadcasts st2
    = (broadcasts st
       ++ [leaderboardUpdated (ranked (<[teamId data := r]> (db st)))])%list
  ∧ pendingBroadcasts st2 = []
  ∧ db st2 = <[teamId data := r]> (db st).
Proof.
  intros Hf Hv Hq Hdoc Hwt Hbt Hp Hok r st1 st2.
  set (st0 := set_db (insert (teamId data) r) (counted st)).
  assert (tracked st0) as Htr0.
  { split; [by destruct Hwt|]. left. by split. }
  destruct (tracked_debouncedBroadcast st0 Htr0)
    as ([Hwt1 _] & t & Hp1 & Hdue & Hbt1).
  destruct (debouncedBroadcast_state st0) as (Hdb & Hem & Hbt1' & _).
  destruct (debouncedBroadcast_clock st0) as (_ & Hnow & Hff).
  assert (handle t = nextHandle st) as Hh.
  { rewrite Hbt1' in Hbt1. by injection Hbt1 as <-. }
  set (e := SocketEmit socket
              (updateSuccess (teamId data) (field data) (Fin q) r 1)).
  assert (st1 = add_emitted e (during debouncedBroadcast st0)) as Hst1
    by by apply onUpdateScore_alone.
  subst st2. rewrite <-Hh, Hst1.
  rewrite fireTimer_alone; [|done|done|simpl; rewrite Hdue, Hnow; lia].
  simpl. rewrite Hff. simpl. rewrite Hok, Hdb. simpl.
  split; [|split; [by apply pending_after_clear|done]].
  unfold broadcasts. simpl. rewrite !omap_app. simpl.
  by rewrite !app_nil_r, Hem.
Qed.

Lemma commit_reaches_next_broadcast_witness :
  let r := committed "madLudo" three (newTeam "Alpha" 1) (newTeam "Alpha" 1) in
  let st1 := during (onUpdateScore "s1" (setMadLudo three) 0) oneTeam in
  let st2 := during (fireTimer 0 0) (tick BROADCAST_DELAY st1) in
  broadcasts st2
    = (broadcasts oneTeam
       ++ [leaderboardUpdated (ranked (<["a" := r]> (db oneTeam)))])%list
  ∧ pendingBroadcasts st2 = []
  ∧ db st2 = <["a" := r]> (db oneTeam).
Proof.
  apply (commit_reaches_next_broadcast "s1" (setMadLudo three) 0 oneTeam three
           (newTeam "Alpha" 1)).
  - reflexivity.
  - reflexivity.
  - vm_compute. discriminate.
  - reflexivity.
  - split; constructor.
  - reflexivity.
  - reflexivity.
  - reflexivity.
Defined.

(** ** A failing leaderboard query *)

(** X7.  When the leaderboard query fails, the failure stays inside the
    handler that asked: GET /api/teams answers 500 with the message of
    the error, a new connection is counted and sent nothing, and a
    broadcast emits nothing; none of them changes anything else. *)
Theorem snapshot_failure_contained socket k st :
  (let atFind := nextEnv (tail k) (nextEnv k st) in
   findFails atFind = true →
   ∃ msg, getTeams k st
          = (Return {| status := 500; body := ErrorJson msg |}, atFind,
             tail (tail k)))
  ∧ (let atFind := nextEnv k (set_activeConnections (λ n, n + 1) st) in
     findFails atFind = true →
     onConnection socket k st = (Return tt, atFind, tail k))
  ∧ (let atFind := nextEnv (tail k) (nextEnv k st) in
     findFails atFind = true →
     broadcastLeaderboard k st = (Return tt, atFind, tail (tail k))).
Proof.
  split; [|split].
  - intros atFind Hfail. eexists. unfold getTeams.
    rewrite try_catch_eq, bind_eq, await_eq, getLeaderboard_eq.
    fold atFind. by rewrite Hfail.
  - intros atFind Hfail. unfold onConnection. rewrite bind_eq. simpl.
    rewrite try_catch_eq, bind_eq, getLeaderboard_eq. fold atFind.
    by rewrite Hfail.
  - intros atFind Hfail. rewrite broadcastLeaderboard_eq. fold atFind.
    by rewrite Hfail.
Qed.

Lemma snapshot_failure_contained_witness :
  let down (st : State) : State :=
    {| db := db st; findFails := true;
       broadcastTimeout := broadcastTimeout st;
       activeConnections := activeConnections st;
       totalUpdatesPerSecond := totalUpdatesPerSecond st;
       updateCounter := updateCounter st; timers := timers st;
       nextHandle := nextHandle st; now := now st; emitted := emitted st |} in
  (∃ msg, getTeams [] (down oneTeam)
          = (Return {| status := 500; body := ErrorJson msg |}, down oneTeam, []))
  ∧ onConnection "s1" [] (down oneTeam)
    = (Return tt, set_activeConnections (λ n, n + 1) (down oneTeam), [])
  ∧ broadcastLeaderboard [] (down oneTeam) = (Return tt, down oneTeam, []).
Proof.
  intros down. split; [|split].
  - exact (proj1 (snapshot_failure_contained "s1" [] (down oneTeam)) eq_refl).
  - exact (proj1 (proj2 (snapshot_failure_contained "s1" [] (down oneTeam)))
             eq_refl).
  - exact (proj2 (proj2 (snapshot_failure_contained "s1" [] (down oneTeam)))
             eq_refl).
Defined.

(** ** What a snapshot contains, and who leads *)

Lemma StronglySorted_lookup {A} (R : relation A) (l : list A) i j x y :
  StronglySorted R l → (i < j)%nat → l !! i = Some x → l !! j = Some y → R x y.
Proof.
  intros Hs. revert i j. induction Hs as [|a l Hs IH Hall]; intros i j Hij Hi Hj.
  - by rewrite lookup_nil in Hi.
  - destruct j as [|j]; [lia|]. simpl in Hj. destruct i as [|i].
    + injection Hi as <-. rewrite Forall_forall in Hall. apply Hall.
      by apply list_elem_of_lookup_2 in Hj.
    + simpl in Hi. apply (IH i j); [lia|done..].
Qed.

(** X8.  A snapshot lists every record of the collection exactly once,
    under its identifier and with its stored content, and nothing else;
    its ranks are 1, 2, ..., up to the number of records. *)
Theorem ranked_complete (d : Db) :
  length (ranked d) = size d
  ∧ NoDup (entry_id <$> ranked d)
  ∧ (∀ id doc, d !! id = Some doc
               ↔ ∃ e, e ∈ ranked d ∧ entry_id e = id ∧ entry_team e = doc)
  ∧ rank <$> ranked d = (λ i, Z.of_nat i + 1) <$> seq 0 (size d).
Proof.
  pose proof (ranked_docs d) as Hdocs.
  pose proof (merge_sort_Permutation rankedBefore (map_to_list d)) as Hperm.
  rewrite <-Hdocs in Hperm.
  assert (length (ranked d) = size d) as Hlen.
  { rewrite <-(length_fmap entryDoc), Hperm. apply length_map_to_list. }
  split; [done|]. split; [|split].
  - assert (entry_id <$> ranked d = (entryDoc <$> ranked d).*1) as ->
      by (by rewrite <-list_fmap_compose).
    rewrite Hperm. apply NoDup_fst_map_to_list.
  - intros id doc. rewrite <-elem_of_map_to_list, <-Hperm, list_elem_of_fmap.
    split.
    + intros (e & [= -> ->] & He). by exists e.
    + intros (e & He & <- & <-). by exists e.
  - apply list_eq. intros i. rewrite !list_lookup_fmap.
    destruct (ranked d !! i) as [e|] eqn:He; simpl.
    + rewrite (ranked_rank d i e He).
      rewrite lookup_seq_lt; [done|].
      apply lookup_lt_Some in He. lia.
    + rewrite lookup_seq_ge; [done|].
      apply lookup_ge_None in He. lia.
Qed.

(** X9.  In a snapshot a team with a larger total has the better
    (smaller) rank, and of two teams with equal totals the one created
    earlier has the better rank. *)
Theorem rank_respects_total (d : Db) e1 e2 :
  e1 ∈ ranked d → e2 ∈ ranked d →
  (total (entry_team e2) < total (entry_team e1))%Qc
  ∨ (total (entry_team e1) = total (entry_team e2)
     ∧ createdAt (entry_team e1) < createdAt (entry_team e2)) →
  rank e1 < rank e2.
Proof.
  intros [i Hi]%list_elem_of_lookup [j Hj]%list_elem_of_lookup Hbetter.
  rewrite (ranked_rank d i e1 Hi), (ranked_rank d j e2 Hj).
  assert (StronglySorted rankedBefore (entryDoc <$> ranked d)) as Hs.
  { rewrite ranked_docs. apply StronglySorted_merge_sort; apply _. }
  assert (¬ rankedBefore (entryDoc e2) (entryDoc e1)) as Hnot.
  { unfold rankedBefore, entryDoc. simpl.
    intros [Hlt|[Heq Hle]]; destruct Hbetter as [Hlt'|[Heq' Hlt']].
    - by destruct (Qclt_not_eq _ _ (Qclt_trans _ _ _ Hlt Hlt')).
    - rewrite Heq' in Hlt. by destruct (Qclt_not_eq _ _ Hlt).
    - rewrite Heq in Hlt'. by destruct (Qclt_not_eq _ _ Hlt').
    - lia. }
  destruct (lt_eq_lt_dec i j) as [[Hlt|Heq]|Hgt]; [lia| |].
  - subst j. rewrite Hi in Hj. injection Hj as <-.
    destruct Hbetter as [Hlt|[_ Hlt]]; [|lia].
    by destruct (Qclt_not_eq _ _ Hlt).
  - destruct Hnot.
    apply (StronglySorted_lookup rankedBefore (entryDoc <$> ranked d) j i);
      [done|lia|by rewrite list_lookup_fmap, Hj|by rewrite list_lookup_fmap, Hi].
Qed.

Lemma rank_respects_total_witness :
  rank {| entry_id := "b"; entry_team := teamB; rank := 1 |}
  < rank {| entry_id := "a"; entry_team := teamA; rank := 2 |}.
Proof.
  apply (rank_respects_total {[ "a" := teamA; "b" := teamB ]}).
  - apply list_elem_of_lookup. exists 0%nat. vm_compute. reflexivity.
  - apply list_elem_of_lookup. exists 1%nat. vm_compute. reflexivity.
  - left. vm_compute. reflexivity.
Defined.

(** ** The load counters *)

Lemma debouncedBroadcast_counters st :
  activeConnections (during debouncedBroadcast st) = activeConnections st
  ∧ updateCounter (during debouncedBroadcast st) = updateCounter st
  ∧ totalUpdatesPerSecond (during debouncedBroadcast st)
    = totalUpdatesPerSecond st.
Proof.
  unfold during, run, debouncedBroadcast, setTimeout, clearTimeout. munfold.
  by destruct (broadcastTimeout st).
Qed.

(** However the store call fails, [attemptUpdate] ends in the state the
    failure left. *)
Lemma attemptUpdate_throw socket data retryCount jitter k st e st1 k1 :
  atomicUpdateScore (teamId data) (field data) (value data) None
    (tail k) (nextEnv k st) = (Throw e, st1, k1) →
  ∃ e', attemptUpdate socket data retryCount jitter k st = (Throw e', st1, k1).
Proof.
  intros Hrun. unfold attemptUpdate.
  rewrite try_catch_eq, bind_eq, await_eq, Hrun.
  destruct (includesStr (message_of e) "CONFLICT"
            && bool_decide (retryCount < MAX_RETRIES)); by eexists.
Qed.

Lemma onUpdateScore_counters socket data jitter st :
  let st' := during (onUpdateScore socket data jitter) st in
  activeConnections st' = activeConnections st
  ∧ updateCounter st' = updateCounter st + 1
  ∧ totalUpdatesPerSecond st' = totalUpdatesPerSecond st.
Proof.
  intros st'. subst st'. unfold during, run. rewrite onUpdateScore_eq. simpl.
  destruct (atomicUpdateScore (teamId data) (field data) (value data) None []
              (counted st)) as [[[r|e] st1] k1] eqn:Hrun.
  - rewrite (attemptUpdate_success _ _ _ _ _ _ r st1 k1) by done. simpl.
    apply atomicUpdateScore_Return_inv in Hrun
      as (q & read & stored & _ & _ & _ & _ & _ & _ & _ & -> & _).
    simpl. destruct (debouncedBroadcast_counters
                       (set_db (insert (teamId data) r) (counted st)))
      as (-> & -> & ->). done.
  - destruct (attemptUpdate_throw socket data 0 jitter [] (counted st) e st1 k1
                Hrun) as [e' ->].
    by apply atomicUpdateScore_Throw_inv in Hrun as [->|[->| ->]].
Qed.

Lemma onConnection_counters socket st :
  let st' := during (onConnection socket) st in
  activeConnections st' = activeConnections st + 1
  ∧ updateCounter st' = updateCounter st
  ∧ totalUpdatesPerSecond st' = totalUpdatesPerSecond st.
Proof.
  intros st'. subst st'. unfold during, run, onConnection.
  rewrite bind_eq. simpl. rewrite try_catch_eq, bind_eq, getLeaderboard_eq.
  simpl. by destruct (findFails st).
Qed.

(** ** What an editor is shown *)

(** X11.  The quality shown never improves when the latency or the
    reported update rate grows.  It is [good] exactly when the latency
    is at most 500 ms and the rate at most 8, and [poor] exactly when
    the latency exceeds 1000 ms or the rate exceeds 15. *)
Theorem connectionQuality_monotone (latency latency' ups ups' : Z) :
  ((latency ≤ latency')%Z → (ups ≤ ups')%Z →
   (badness (connectionQuality latency ups)
    ≤ badness (connectionQuality latency' ups'))%Z)
  ∧ (connectionQuality latency ups = good ↔ (latency ≤ 500)%Z ∧ (ups ≤ 8)%Z)
  ∧ (connectionQuality latency ups = poor ↔ (latency > 1000)%Z ∨ (ups > 15)%Z).
Proof.
  unfold connectionQuality.
  repeat split; repeat case_bool_decide; simpl; try done; try lia;
    intros; try done; lia.
Qed.

Lemma connectionQuality_monotone_witness :
  (badness (connectionQuality 200 3) ≤ badness (connectionQuality 700 3))%Z
  ∧ (badness (connectionQuality 700 3) ≤ badness (connectionQuality 700 20))%Z.
Proof.
  split.
  - apply (proj1 (connectionQuality_monotone 200 700 3 3)); lia.
  - apply (proj1 (connectionQuality_monotone 700 700 3 20)); lia.
Defined.

(** ** The PATCH route *)

(** The three ways a PATCH served without interruption can end: a commit
    of the atomic branch, a write of the save branch, or an answer other
    than 200 with the state as it was. *)
Lemma patchTeam_alone id updates st :
  ∃ resp st',
    run (patchTeam id updates) st = (Return resp, st')
    ∧ ((∃ f q doc,
          singleScore updates = Some f ∧ db st !! id = Some doc
          ∧ toNumber (lookupNumber updates f) = Fin q ∧ (0 ≤ q)%Qc
          ∧ resp = {| status := 200; body := TeamJson (committed f q doc doc) |}
          ∧ st' = during debouncedBroadcast
                    (set_db (insert id (committed f q doc doc)) st))
       ∨ (∃ loaded,
            singleScore updates = None ∧ db st !! id = Some loaded
            ∧ validDoc (assignAllowed loaded updates) = true
            ∧ (name (assignAllowed loaded updates) = name loaded
               ∨ nameTaken (db st) id (name (assignAllowed loaded updates))
                 = false)
            ∧ resp = {| status := 200;
                        body := TeamJson (preSave loaded
                                            (assignAllowed loaded updates)) |}
            ∧ st' = during debouncedBroadcast
                      (set_db (insert id
                                 (writeModified loaded
                                    (preSave loaded (assignAllowed loaded updates))
                                    loaded)) st))
       ∨ (st' = st ∧ status resp ≠ 200
          ∧ (db st !! id = None →
             status resp = match singleScore updates with
                           | Some _ => 500
                           | None => 404
                           end))).
Proof.
  assert (∀ (P : Completion Response * State → Prop),
            (∀ loaded, db st !! id = Some loaded →
               validDoc (assignAllowed loaded updates) = true →
               (name (assignAllowed loaded updates) = name loaded
                ∨ nameTaken (db st) id (name (assignAllowed loaded updates))
                  = false) →
               P (Return {| status := 200;
                            body := TeamJson (preSave loaded
                                                (assignAllowed loaded updates)) |},
                  during debouncedBroadcast
                    (set_db (insert id
                               (writeModified loaded
                                  (preSave loaded (assignAllowed loaded updates))
                                  loaded)) st))) →
            (∀ resp, status resp ≠ 200 → (db st !! id = None → status resp = 404) →
               P (Return resp, st)) →
            P (let '(r, st', _) :=
                 try_catch
                   (team ← await (findById id);
                    match team with
                    | None => mret {| status := 404;
                                      body := ErrorJson "Team not found" |}
                    | Some team =>
                        saved ← await (save id team (assignAllowed team updates));
                        debouncedBroadcast;;
                        mret {| status := 200; body := TeamJson saved |}
                    end)
                   (λ error,
                      if includesStr (message_of error) "CONFLICT"
                      then mret {| status := 409;
                                   body := ErrorJson (message_of error) |}
                      else mret {| status := 500;
                                   body := ErrorJson (message_of error) |})
                   [] st in (r, st'))) as Hsave.
  { intros P Hok Hfail.
    rewrite try_catch_eq, bind_eq, await_eq, findById_eq. simpl.
    destruct (db st !! id) as [loaded|] eqn:Hl; simpl; [|by apply Hfail].
    rewrite bind_eq, await_eq. simpl. unfold save.
    destruct (validDoc (assignAllowed loaded updates)) eqn:Hvalid; simpl;
      [|by apply Hfail].
    munfold. rewrite Hl.
    assert (name (preSave loaded (assignAllowed loaded updates))
            = name (assignAllowed loaded updates)) as Hname
      by (unfold preSave; by destruct (scoresModified _ _)).
    rewrite Hname.
    destruct (negb (bool_decide (name (assignAllowed loaded updates)
                                 = name loaded))
              && nameTaken (db st) id (name (assignAllowed loaded updates)))
      eqn:Htaken; simpl; [by apply Hfail|].
    rewrite debouncedBroadcast_eq. apply Hok; [done|done|].
    apply andb_false_iff in Htaken as [Hsame|Hfree]; [left|by right].
    apply negb_false_iff in Hsame. by apply bool_decide_eq_true in Hsame. }
  unfold run, patchTeam, singleScore.
  destruct (List.filter (includes scoreFields) (keys updates)) as [|f [|g l]] eqn:Hs;
    destruct (truthy (body_name updates)) eqn:Ht.
  1,2,3,5,6: apply Hsave;
    [intros loaded Hl Hvalid Hname; eexists _, _; split; [done|]; right; left;
     by exists loaded
    |intros resp Hst H404; eexists _, _; split; [done|]; by right; right].
  rewrite try_catch_eq, bind_eq, await_eq. simpl.
  destruct (atomicUpdateScore id f (toNumber (lookupNumber updates f)) None [] st)
    as [[[r|e] st1] k1] eqn:Hrun.
  - apply atomicUpdateScore_Return_inv in Hrun
      as (q & read & stored & Hv & Hf & Hq & Hread & Hstored & Hver & -> & -> & ->).
    simpl in *. rewrite Hread in Hstored. injection Hstored as <-.
    rewrite bind_eq, debouncedBroadcast_eq. simpl.
    eexists _, _. split; [done|]. left. by exists f, q, read.
  - assert (st1 = st) as ->
      by (by apply atomicUpdateScore_Throw_inv in Hrun as [->|[->| ->]]).
    assert (db st !! id = None → includesStr (message_of e) "CONFLICT" = false)
      as Hnone.
    { intros Hnone. unfold atomicUpdateScore in Hrun.
      destruct (negb (includes validFields f)); [by injection Hrun as <-|].
      destruct (toNumber (lookupNumber updates f)) as [|q];
        [by injection Hrun as <-|].
      case_bool_decide; [by injection Hrun as <-|].
      rewrite bind_eq, await_eq, findById_eq in Hrun. simpl in Hrun.
      rewrite Hnone in Hrun. by injection Hrun as <-. }
    destruct (includesStr (message_of e) "CONFLICT") eqn:Hc; simpl;
      eexists _, _; (split; [done|]); right; right; simpl;
      (split; [done|]); (split; [done|]); intros Hn;
      [by specialize (Hnone Hn)|done].
Qed.

Lemma debouncedBroadcast_db st : db (during debouncedBroadcast st) = db st.
Proof. by destruct (debouncedBroadcast_state st) as (? & _). Qed.

Lemma assignAllowed_version team updates :
  version (assignAllowed team updates) = version team
  ∧ createdAt (assignAllowed team updates) = createdAt team.
Proof.
  unfold assignAllowed.
  assert (∀ l t, version (foldl (λ team p, if includes allowedFields p.1
                                          then setField p.1 p.2 team else team)
                            t l) = version t
                 ∧ createdAt (foldl (λ team p, if includes allowedFields p.1
                                               then setField p.1 p.2 team
                                               else team) t l) = createdAt t)
    as Hfold.
  { induction l as [|p l IH]; intros t; [done|]. simpl.
    destruct (IH (if includes allowedFields p.1 then setField p.1 p.2 t else t))
      as [-> ->].
    destruct (includes allowedFields p.1);
      [by rewrite setField_version, setField_createdAt|done]. }
  destruct (Hfold (body_numbers updates)
              (match body_name updates with
               | Some s => if includes allowedFields "name" then set_name s team
                           else team
               | None => team
               end)) as [-> ->].
  destruct (body_name updates); [|done].
  by destruct (includes allowedFields "name").
Qed.

Lemma preSave_version loaded doc :
  version (preSave loaded doc) = version doc
  ∧ createdAt (preSave loaded doc) = createdAt doc.
Proof. unfold preSave. by destruct (scoresModified loaded doc). Qed.

(** X13.  A PATCH served without interruption always answers.  It
    creates and deletes no record, leaves every other record and every
    creation time as they are, and moves the version of its record by 0
    or by 1; an answer other than 200 comes with no change at all, and
    an answer 200 with a broadcast scheduled. *)
Theorem patch_frame id updates st :
  ∃ resp st',
    run (patchTeam id updates) st = (Return resp, st')
    ∧ (∀ id' doc, db st !! id' = Some doc →
         ∃ doc', db st' !! id' = Some doc'
                 ∧ createdAt doc' = createdAt doc
                 ∧ (id' ≠ id → doc' = doc)
                 ∧ (version doc' = version doc
                    ∨ version doc' = version doc + 1))
    ∧ (∀ id', db st !! id' = None → db st' !! id' = None)
    ∧ (status resp ≠ 200 → st' = st)
    ∧ (status resp = 200 → broadcastTimeout st' = Some (nextHandle st)).
Proof.
  destruct (patchTeam_alone id updates st) as (resp & st' & Hrun & Hcases).
  exists resp, st'. split; [done|].
  assert (∀ new old,
            db st !! id = Some old → createdAt new = createdAt old →
            (version new = version old ∨ version new = version old + 1) →
            st' = during debouncedBroadcast (set_db (insert id new) st) →
            (∀ id' doc, db st !! id' = Some doc →
               ∃ doc', db st' !! id' = Some doc'
                       ∧ createdAt doc' = createdAt doc
                       ∧ (id' ≠ id → doc' = doc)
                       ∧ (version doc' = version doc
                          ∨ version doc' = version doc + 1))
            ∧ (∀ id', db st !! id' = None → db st' !! id' = None)
            ∧ broadcastTimeout st' = Some (nextHandle st)) as Hwrite.
  { intros new old Hold Hc Hv ->. rewrite debouncedBroadcast_db. simpl.
    split; [|split].
    - intros id' doc Hdoc. destruct (decide (id' = id)) as [->|Hne].
      + rewrite Hold in Hdoc. injection Hdoc as <-. exists new.
        by rewrite lookup_insert_eq.
      + exists doc. rewrite lookup_insert_ne by done. repeat split; auto.
    - intros id' Hnone. rewrite lookup_insert_ne; [done|].
      intros ->. by rewrite Hold in Hnone.
    - by destruct (debouncedBroadcast_state (set_db (insert id new) st))
        as (_ & _ & ? & _). }
  destruct Hcases as [(f & q & doc & _ & Hdoc & _ & _ & -> & Hst')
                     |[(loaded & _ & Hl & _ & _ & -> & Hst')|(-> & Hst & _)]].
  - destruct (Hwrite (committed f q doc doc) doc Hdoc) as (H1 & H2 & H3);
      [unfold committed; simpl; apply setField_createdAt
      |right; apply committed_version|done|].
    by repeat split.
  - destruct (Hwrite (writeModified loaded
                        (preSave loaded (assignAllowed loaded updates)) loaded)
                loaded Hl) as (H1 & H2 & H3); [done|by left|done|].
    by repeat split.
  - repeat split; try done. intros id' doc Hdoc. exists doc.
    repeat split; auto.
Qed.

(** X14.  A PATCH for a well-formed identifier that is not in the
    collection changes nothing; it is answered 404 on the save branch (a
    name, or not exactly one score) and 500 on the atomic branch (one
    score and no name).  (An identifier that is not well formed makes
    [findById] reject instead; the embedding does not tell the two
    apart, and the statement leaves such identifiers out.) *)
Theorem patch_unknown_id id updates st :
  wellFormedId id = true →
  db st !! id = None →
  ∃ resp,
    run (patchTeam id updates) st = (Return resp, st)
    ∧ status resp = match singleScore updates with
                    | Some _ => 500
                    | None => 404
                    end.
Proof.
  intros _ Hnone.
  destruct (patchTeam_alone id updates st) as (resp & st' & Hrun & Hcases).
  destruct Hcases as [(f & q & doc & _ & Hdoc & _)
                     |[(loaded & _ & Hl & _)|(-> & _ & Hst)]].
  - by rewrite Hnone in Hdoc.
  - by rewrite Hnone in Hl.
  - exists resp. split; [done|]. by apply Hst.
Qed.

Lemma patch_unknown_id_witness :
  (∃ resp, run (patchTeam "65f0a1b2c3d4e5f6a7b8c9d0"
                  {| body_name := None;
                     body_numbers := [("madLudo", five)] |}) oneTeam
           = (Return resp, oneTeam) ∧ status resp = 500)
  ∧ (∃ resp, run (patchTeam "65f0a1b2c3d4e5f6a7b8c9d0" renameOnly) oneTeam
             = (Return resp, oneTeam)
             ∧ status resp = 404).
Proof.
  split.
  - exact (patch_unknown_id "65f0a1b2c3d4e5f6a7b8c9d0"
             {| body_name := None; body_numbers := [("madLudo", five)] |}
             oneTeam eq_refl eq_refl).
  - exact (patch_unknown_id "65f0a1b2c3d4e5f6a7b8c9d0" renameOnly oneTeam
             eq_refl eq_refl).
Defined.

Lemma writeModified_loaded_consistent loaded d :
  consistent d → consistent (writeModified loaded d loaded).
Proof.
  intros Hd. unfold consistent, writeModified, scoreSum in *. simpl.
  assert (∀ (x y : Qc), (if decide (x = y) then y else x) = x) as Hpick
    by (by intros x y; case_decide).
  by rewrite !Hpick.
Qed.

(** X15.  A PATCH of the save branch that changes a score, served
    without interruption and answered 200, stores a record whose [total]
    is the sum of its scores, whatever [total] was stored before, and
    whose version is the one it had. *)
Theorem patch_recomputes_total id updates st loaded resp st' :
  db st !! id = Some loaded →
  singleScore updates = None →
  scoresModified loaded (assignAllowed loaded updates) = true →
  run (patchTeam id updates) st = (Return resp, st') →
  status resp = 200 →
  ∃ doc', db st' !! id = Some doc' ∧ consistent doc'
          ∧ version doc' = version loaded.
Proof.
  intros Hl Hsingle Hmod Hrun Hok.
  destruct (patchTeam_alone id updates st) as (resp0 & st0 & Hrun0 & Hcases).
  rewrite Hrun in Hrun0. injection Hrun0 as <- <-.
  destruct Hcases as [(f & q & doc & Hs & _)
                     |[(loaded' & _ & Hl' & _ & _ & -> & ->)|(_ & Hst & _)]].
  - by rewrite Hsingle in Hs.
  - rewrite Hl in Hl'. injection Hl' as <-.
    eexists. rewrite debouncedBroadcast_db. simpl. rewrite lookup_insert_eq.
    split; [done|]. split; [|done].
    apply writeModified_loaded_consistent. unfold preSave. by rewrite Hmod.
  - done.
Qed.

Lemma patch_recomputes_total_witness :
  let stale := set_total (Qc_of_Z 99) (newTeam "Alpha" 1) in
  let updates := {| body_name := None;
                    body_numbers := [("madLudo", five); ("cosmicJump", three)] |} in
  ¬ consistent stale
  ∧ ∃ doc', db (during (patchTeam "a" updates) (initState {[ "a" := stale ]}))
              !! "a" = Some doc'
            ∧ consistent doc' ∧ version doc' = version stale.
Proof.
  intros stale updates. split.
  - unfold consistent. intros Heq.
    by apply (f_equal (λ q, Qnum (this q))) in Heq.
  - apply (patch_recomputes_total "a" updates (initState {[ "a" := stale ]})
             stale
             (match (run (patchTeam "a" updates) (initState {[ "a" := stale ]})).1
              with Return r => r | Throw _ => {| status := 0; body := ErrorJson "" |}
              end)).
    + reflexivity.
    + reflexivity.
    + reflexivity.
    + reflexivity.
    + reflexivity.
Defined.

Lemma singleScore_Some updates f :
  singleScore updates = Some f →
  List.filter (includes scoreFields) (keys updates) = [f]
  ∧ truthy (body_name updates) = false
  ∧ includes validFields f = true.
Proof.
  unfold singleScore. intros Hs.
  destruct (List.filter (includes scoreFields) (keys updates))
    as [|f' [|? ?]] eqn:Hfilter; try done.
  destruct (truthy (body_name updates)); [done|]. injection Hs as ->.
  repeat split.
  assert (In f (List.filter (includes scoreFields) (keys updates))) as Hin
    by (rewrite Hfilter; by left).
  by apply filter_In in Hin as [_ Hin].
Qed.

(** X16.  A single-score PATCH whose record is given another version
    between the route's read and its conditional write is answered 409
    with the conflict message; the request itself changes nothing and
    schedules no broadcast: the state it leaves is the one the other
    requests made. *)
Theorem patch_conflict id updates f q k st read :
  singleScore updates = Some f →
  toNumber (lookupNumber updates f) = Fin q → (0 ≤ q)%Qc →
  let atRead := nextEnv (tail k) (nextEnv k st) in
  let atWrite := nextEnv (tail (tail k)) atRead in
  db atRead !! id = Some read →
  (∀ stored, db atWrite !! id = Some stored → version stored ≠ version read) →
  patchTeam id updates k st
  = (Return {| status := 409; body := ErrorJson CONFLICT_MESSAGE |},
     atWrite, tail (tail (tail k))).
Proof.
  intros Hs Hv Hq atRead atWrite Hread Hmiss.
  destruct (singleScore_Some _ _ Hs) as (Hfilter & Hname & Hf).
  unfold patchTeam. rewrite try_catch_eq. simpl. rewrite Hfilter, Hname, Hv.
  rewrite bind_eq, await_eq.
  by rewrite (atomicUpdateScore_conflict id f None (tail k) (nextEnv k st)
                q read Hf Hq Hread Hmiss).
Qed.

Lemma patch_conflict_witness :
  patchTeam "a" {| body_name := None; body_numbers := [("madLudo", three)] |}
    [id; id; otherCommit] oneTeam
  = (Return {| status := 409; body := ErrorJson CONFLICT_MESSAGE |},
     otherCommit oneTeam, []).
Proof.
  apply (patch_conflict "a"
           {| body_name := None; body_numbers := [("madLudo", three)] |}
           "madLudo" three [id; id; otherCommit] oneTeam (newTeam "Alpha" 1)).
  - reflexivity.
  - reflexivity.
  - by vm_compute.
  - reflexivity.
  - intros stored Hstored. vm_compute in Hstored. injection Hstored as <-.
    by vm_compute.
Defined.

(** ** Creating a team *)

Lemma nameTaken_spec d id s :
  nameTaken d id s = true ↔ ∃ j t, d !! j = Some t ∧ j ≠ id ∧ name t = s.
Proof.
  unfold nameTaken. rewrite bool_decide_eq_true, Exists_exists. split.
  - intros ([j t] & Hin & Hne & Hname). exists j, t.
    by apply elem_of_map_to_list in Hin.
  - intros (j & t & Hjt & Hne & Hname). exists (j, t).
    split; [|done]. by apply elem_of_map_to_list.
Qed.

Lemma nameTaken_free d id s :
  (∀ j t, d !! j = Some t → name t ≠ s) → nameTaken d id s = false.
Proof.
  intros Hfree. apply not_true_is_false. intros Htaken.
  apply nameTaken_spec in Htaken as (j & t & Hjt & _ & Hname).
  by apply (Hfree j t).
Qed.

(** X17.  A POST with a name that is not blank and that no team
    carries, served without interruption, is answered 201 with the new
    team: the trimmed name, every score and [total] 0, version 0, created
    now.  The team is stored under its new identifier and every other
    record is left as it is.  The snapshot with the new team in it is
    emitted to all sockets at once, not through the debouncer, whose
    timers stay as they are. *)
Theorem post_creates_team (trim : string → string) id n st :
  n ≠ "" → trim n ≠ "" → trim (trim n) = trim n →
  db st !! id = None →
  (∀ j t, db st !! j = Some t → name t ≠ trim n) →
  let team := newTeam (trim n) (now st) in
  let st1 := set_db (insert id team) st in
  run (postTeam trim id (Some n)) st
  = (Return {| status := 201; body := TeamJson team |},
     if findFails st then st1
     else add_emitted (IoEmit (leaderboardUpdated (ranked (db st1)))) st1)
  ∧ consistent team.
Proof.
  intros Hn Htrim Hidem Hfresh Hfree team st1. split; [|done].
  unfold run, postTeam. rewrite try_catch_eq. simpl.
  rewrite (bool_decide_eq_false_2 (n = "")) by done.
  rewrite (bool_decide_eq_false_2 (trim n = "")) by done. simpl.
  rewrite bind_eq, await_eq. unfold saveNew at 1. munfold.
  unfold validDoc, newDocument. simpl. rewrite Hidem.
  rewrite (bool_decide_eq_false_2 (trim n = "")) by done. simpl.
  rewrite Hfresh. rewrite bool_decide_eq_false_2 by by intros [? ?].
  rewrite (nameTaken_free _ _ _ Hfree). simpl.
  match goal with
  | |- context [set_total ?s ?d] =>
      replace (set_total s d) with team
        by (unfold team, newTeam, set_total, scoreSum; simpl; f_equal; ring)
  end.
  fold st1. rewrite await_eq, broadcastLeaderboard_eq. simpl.
  by destruct (findFails st).
Qed.

Lemma post_creates_team_witness :
  run (postTeam trimSpaces "b" (Some "  Beta ")) oneTeam
  = (Return {| status := 201; body := TeamJson (newTeam "Beta" 0) |},
     add_emitted
       (IoEmit (leaderboardUpdated
                  (ranked (<["b" := newTeam "Beta" 0]> (db oneTeam)))))
       (set_db (insert "b" (newTeam "Beta" 0)) oneTeam)).
Proof.
  refine (proj1 (post_creates_team trimSpaces "b" "  Beta " oneTeam
                   _ _ _ _ _)).
  - done.
  - by vm_compute.
  - reflexivity.
  - reflexivity.
  - intros j t Hjt. destruct (decide (j = "a")) as [->|Hne].
    + vm_compute in Hjt. injection Hjt as <-. by vm_compute.
    + unfold oneTeam, initState in Hjt. simpl in Hjt.
      by rewrite lookup_singleton_ne in Hjt.
Defined.

(** X18.  A POST that is refused changes nothing.  With no name, an
    empty one or one that trims to nothing it is answered 400 'Team name
    is required' before anything is awaited.  With a name that a stored
    team carries when the insert is made it is answered 400 'Team name
    already exists', and the state is the one the insert found. *)
Theorem post_refused (trim : string → string) id given k st :
  (match given with
   | None => True
   | Some n => n = "" ∨ trim n = ""
   end →
   postTeam trim id given k st
   = (Return {| status := 400; body := ErrorJson "Team name is required" |},
      st, k))
  ∧ (∀ n j t,
       given = Some n → n ≠ "" → trim n ≠ "" → trim (trim n) = trim n →
       db (nextEnv k st) !! j = Some t → name t = trim n →
       postTeam trim id given k st
       = (Return {| status := 400; body := ErrorJson "Team name already exists" |},
          nextEnv k st, tail k)).
Proof.
  split.
  - destruct given as [n|]; [|done]. intros Hblank.
    unfold postTeam. rewrite try_catch_eq. simpl.
    destruct Hblank as [->|Htrim].
    + by rewrite (bool_decide_eq_true_2 ("" = "")).
    + rewrite (bool_decide_eq_true_2 (trim n = "")) by done.
      by rewrite orb_true_r.
  - intros n j t -> Hn Htrim Hidem Hjt Hname.
    unfold postTeam. rewrite try_catch_eq. simpl.
    rewrite (bool_decide_eq_false_2 (n = "")) by done.
    rewrite (bool_decide_eq_false_2 (trim n = "")) by done. simpl.
    rewrite bind_eq, await_eq. unfold saveNew at 1. munfold.
    unfold validDoc, newDocument. simpl. rewrite Hidem.
    rewrite (bool_decide_eq_false_2 (trim n = "")) by done. simpl.
    destruct (decide (j = id)) as [->|Hne].
    + rewrite Hjt. by rewrite bool_decide_eq_true_2.
    + assert (nameTaken (db (nextEnv k st)) id (trim n) = true) as ->
        by (apply nameTaken_spec; by exists j, t).
      by rewrite orb_true_r.
Qed.

Lemma post_refused_witness :
  postTeam trimSpaces "b" (Some "   ") [] oneTeam
  = (Return {| status := 400; body := ErrorJson "Team name is required" |},
     oneTeam, [])
  ∧ postTeam trimSpaces "b" (Some " Alpha") [] oneTeam
    = (Return {| status := 400; body := ErrorJson "Team name already exists" |},
       oneTeam, []).
Proof.
  split.
  - apply (proj1 (post_refused trimSpaces "b" (Some "   ") [] oneTeam)).
    right. reflexivity.
  - apply (proj2 (post_refused trimSpaces "b" (Some " Alpha") [] oneTeam)
             " Alpha" "a" (newTeam "Alpha" 1)); try reflexivity; try done.
Defined.

(** ** Invariants of the collection *)

Lemma validDoc_spec doc :
  validDoc doc = true
  ↔ name doc ≠ "" ∧ (0 ≤ madLudo doc)%Qc ∧ (0 ≤ treasureHunt doc)%Qc
    ∧ (0 ≤ spaceRoulette doc)%Qc ∧ (0 ≤ cosmicJump doc)%Qc
    ∧ (0 ≤ spaceColosseum doc)%Qc.
Proof.
  unfold validDoc. rewrite !andb_true_iff, negb_true_iff, bool_decide_eq_false.
  rewrite !bool_decide_eq_true. tauto.
Qed.

Lemma validDoc_committed f q read stored :
  (0 ≤ q)%Qc → validDoc stored = true →
  validDoc (committed f q read stored) = true.
Proof.
  rewrite !validDoc_spec. intros Hq (Hn & H1 & H2 & H3 & H4 & H5).
  unfold committed, incTotalVersion, setField.
  repeat case_decide; simpl; by repeat split.
Qed.

Lemma committed_name f q read stored :
  name (committed f q read stored) = name stored
  ∧ createdAt (committed f q read stored) = createdAt stored.
Proof.
  unfold committed, incTotalVersion. simpl.
  by rewrite setField_name, setField_createdAt.
Qed.

Lemma writeModified_loaded loaded doc :
  version doc = version loaded → createdAt doc = createdAt loaded →
  writeModified loaded doc loaded = doc.
Proof.
  intros Hv Hc. unfold writeModified.
  assert (∀ A (x y : A) (H : Decision (x = y)), (if H then y else x) = x)
    as Hpick by (by intros A x y [->|]).
  rewrite !Hpick, <- Hv, <- Hc. by destruct doc.
Qed.

Lemma attemptUpdate_written socket data retryCount jitter st :
  written (db st) (db (during (attemptUpdate socket data retryCount jitter) st)).
Proof.
  unfold during, run.
  destruct (atomicUpdateScore (teamId data) (field data) (value data) None []
              st) as [[[r|e] st1] k1] eqn:Hrun.
  - rewrite (attemptUpdate_success _ _ _ _ _ _ r st1 k1) by done. simpl.
    apply atomicUpdateScore_Return_inv in Hrun
      as (q & read & stored & _ & Hf & Hq & Hread & Hstored & _ & -> & -> & _).
    simpl in *. rewrite Hread in Hstored. injection Hstored as <-.
    rewrite debouncedBroadcast_db. simpl.
    destruct (committed_name (field data) q read read) as [Hname Hcreated].
    apply (written_update _ _ read); auto.
    + intros Hvalid. by apply validDoc_committed.
    + right. apply committed_version.
  - destruct (attemptUpdate_throw socket data retryCount jitter [] st e st1 k1
                Hrun) as [e' ->].
    simpl.
    assert (st1 = st) as ->
      by (by apply atomicUpdateScore_Throw_inv in Hrun as [->|[->| ->]]).
    constructor.
Qed.

Lemma onEvent_written ev st : written (db st) (db (during (onEvent ev) st)).
Proof.
  destruct ev as [s|s|s|s data jitter]; cbn [onEvent].
  - unfold during, run, onConnection. rewrite bind_eq. simpl.
    rewrite try_catch_eq, bind_eq, getLeaderboard_eq. simpl.
    destruct (findFails st); simpl; constructor.
  - unfold during, run. simpl. constructor.
  - unfold during, run. simpl. constructor.
  - unfold during, run. rewrite onUpdateScore_eq. simpl.
    apply (attemptUpdate_written s data 0 jitter (counted st)).
Qed.

Lemma postTeam_written (trim : string → string) id given st :
  written (db st) (db (during (postTeam trim id given) st)).
Proof.
  unfold during, run, postTeam. rewrite try_catch_eq.
  destruct given as [n|]; [|constructor]. simpl.
  destruct (negb (negb (bool_decide (n = ""))) || bool_decide (trim n = ""));
    [constructor|].
  rewrite bind_eq, await_eq. unfold saveNew at 1. munfold.
  destruct (validDoc (newDocument trim (trim n) (now st))) eqn:Hvalid; simpl;
    [|constructor].
  destruct (db st !! id) as [old|] eqn:Hid; simpl; [constructor|].
  destruct (nameTaken (db st) id (trim (trim n))) eqn:Hfree; simpl;
    [constructor|].
  rewrite await_eq, broadcastLeaderboard_eq. simpl.
  assert (written (db st)
            (<[id:=set_total (scoreSum (newDocument trim (trim n) (now st)))
                     (newDocument trim (trim n) (now st))]> (db st))) as Hw
    by (by apply written_insert).
  by destruct (findFails st).
Qed.

Lemma patchTeam_written id updates st :
  written (db st) (db (during (patchTeam id updates) st)).
Proof.
  unfold during.
  destruct (patchTeam_alone id updates st) as (resp & st' & -> & Hcases).
  simpl.
  destruct Hcases as [(f & q & doc & Hs & Hdoc & _ & Hq & _ & ->)
                     |[(loaded & _ & Hl & Hvalid & Hname & _ & ->)|(-> & _)]].
  - rewrite debouncedBroadcast_db. simpl.
    destruct (committed_name f q doc doc) as [Hname Hcreated].
    apply (written_update _ _ doc); auto.
    + intros Hvalid. by apply validDoc_committed.
    + right. apply committed_version.
  - rewrite debouncedBroadcast_db. simpl.
    destruct (assignAllowed_version loaded updates) as [Hv Hc].
    destruct (preSave_version loaded (assignAllowed loaded updates))
      as [Hv' Hc'].
    rewrite writeModified_loaded by congruence.
    assert (name (preSave loaded (assignAllowed loaded updates))
            = name (assignAllowed loaded updates)) as Hn
      by (unfold preSave; by destruct (scoresModified _ _)).
    apply (written_update _ _ loaded); [done| |by rewrite Hn|congruence|].
    + intros _. rewrite validDoc_spec in *. unfold preSave.
      by destruct (scoresModified _ _).
    + left. congruence.
  - constructor.
Qed.

Lemma fireTimer_written h jitter st :
  written (db st) (db (during (fireTimer h jitter) st)).
Proof.
  unfold during, run, fireTimer. rewrite bind_eq. simpl.
  destruct (List.find (λ t, bool_decide (handle t = h)) (timers st)) as [t|];
    [|constructor].
  case_bool_decide; [|constructor].
  rewrite bind_eq. simpl.
  destruct (callback t) as [|socket data retryCount].
  - rewrite broadcastCallback_eq. simpl.
    destruct (findFails st); simpl; constructor.
  - apply (attemptUpdate_written socket data retryCount jitter
             (set_timers (filter (λ t0, handle t0 ≠ h) (timers st))
                (nextHandle st) st)).
Qed.

Lemma serveRequest_written (trim : string → string) st r :
  written (db st) (db (serveRequest trim st r)).
Proof.
  destruct r as [ev| |id given|id updates|h jitter|ms|]; simpl.
  - apply onEvent_written.
  - unfold during, run, getTeams.
    rewrite try_catch_eq, bind_eq, await_eq, getLeaderboard_eq. simpl.
    destruct (findFails st); constructor.
  - apply postTeam_written.
  - apply patchTeam_written.
  - apply fireTimer_written.
  - constructor.
  - constructor.
Qed.

Lemma written_schema d d' :
  written d d' → uniqueNames d → allValid d → uniqueNames d' ∧ allValid d'.
Proof.
  intros Hw Hu Hv.
  assert (∀ id new,
            (∀ j tj, d !! j = Some tj → j ≠ id → name tj ≠ name new) →
            uniqueNames (<[id:=new]> d)) as Hins.
  { intros id new Hfree i j ti tj Hi Hj Hname.
    destruct (decide (i = id)) as [->|Hi'], (decide (j = id)) as [->|Hj'];
      [done| | |].
    - rewrite lookup_insert_eq in Hi. rewrite lookup_insert_ne in Hj by done.
      injection Hi as <-. by destruct (Hfree j tj Hj Hj').
    - rewrite lookup_insert_eq in Hj. rewrite lookup_insert_ne in Hi by done.
      injection Hj as <-. by destruct (Hfree i ti Hi Hi').
    - rewrite lookup_insert_ne in Hi, Hj by done. by apply (Hu i j ti tj). }
  assert (∀ id s, nameTaken d id s = false →
                  ∀ j tj, d !! j = Some tj → j ≠ id → name tj ≠ s) as Hfree.
  { intros id s Hf j tj Hj Hne Hname.
    assert (nameTaken d id s = true) as Ht
      by (apply nameTaken_spec; by exists j, tj).
    by rewrite Hf in Ht. }
  destruct Hw as [|id old new Hold Hvalid Hname _ _|id new Hnone Hvalid Hname].
  - done.
  - split.
    + apply Hins. destruct Hname as [->|Hname]; [|by apply Hfree].
      intros j tj Hj Hne Heq. apply Hne. by apply (Hu j id tj old).
    + apply map_Forall_insert_2; [|done]. apply Hvalid. by apply (Hv id old).
  - split; [by apply Hins, Hfree|]. by apply map_Forall_insert_2.
Qed.

Lemma written_kept d d' id doc :
  written d d' → d !! id = Some doc →
  ∃ doc', d' !! id = Some doc' ∧ createdAt doc' = createdAt doc
          ∧ (version doc ≤ version doc' ≤ version doc + 1)%Z.
Proof.
  intros Hw Hdoc.
  destruct Hw as [|id' old new Hold _ _ Hc Hv|id' new Hnone _ _].
  - exists doc. repeat split; [done|lia..].
  - destruct (decide (id = id')) as [->|Hne].
    + rewrite Hold in Hdoc. injection Hdoc as <-. exists new.
      rewrite lookup_insert_eq. repeat split; [done|lia..].
    + exists doc. rewrite lookup_insert_ne by done.
      repeat split; [done|lia..].
  - exists doc. rewrite lookup_insert_ne; [repeat split; [done|lia..]|].
    intros ->. by rewrite Hnone in Hdoc.
Qed.

(** X19.  Over any sequence of requests, each served from start to end
    (socket events, GET, POST and PATCH requests, timers firing, time
    passing, the rate sampler): if no two teams carry the same name and
    every team passes the schema's validators (a name, no negative
    score), the same holds afterwards. *)
Theorem schema_kept (trim : string → string) reqs st :
  uniqueNames (db st) → allValid (db st) →
  uniqueNames (db (serveAll trim reqs st))
  ∧ allValid (db (serveAll trim reqs st)).
Proof.
  intros Hu Hv. induction reqs as [|r reqs [IHu IHv]] using rev_ind; [done|].
  unfold serveAll in *. rewrite foldl_app. cbn [foldl].
  by apply (written_schema _ _ (serveRequest_written trim _ r)).
Qed.

Lemma schema_kept_witness :
  (uniqueNames (db oneTeam) ∧ allValid (db oneTeam))
  ∧ uniqueNames
      (db (serveAll trimSpaces
             [PostReq "b" (Some " Beta"); PatchReq "b" renameOnly;
              SocketReq (UpdateScore "s1" (setMadLudo three) 0);
              Elapse 100; Fire 1 0] oneTeam))
  ∧ allValid
      (db (serveAll trimSpaces
             [PostReq "b" (Some " Beta"); PatchReq "b" renameOnly;
              SocketReq (UpdateScore "s1" (setMadLudo three) 0);
              Elapse 100; Fire 1 0] oneTeam)).
Proof.
  assert (uniqueNames (db oneTeam)) as Hu.
  { intros i j ti tj Hi Hj _. unfold oneTeam, initState in *. simpl in *.
    apply lookup_singleton_Some in Hi as [<- _].
    by apply lookup_singleton_Some in Hj as [<- _]. }
  assert (allValid (db oneTeam)) as Hv.
  { unfold oneTeam, initState, allValid. simpl.
    by apply map_Forall_singleton. }
  split; [done|].
  exact (schema_kept trimSpaces
           [PostReq "b" (Some " Beta"); PatchReq "b" renameOnly;
            SocketReq (UpdateScore "s1" (setMadLudo three) 0);
            Elapse 100; Fire 1 0] oneTeam Hu Hv).
Defined.

(** X20.  Over any sequence of requests, each served from start to
    end, no team is deleted, no creation time changes, and no version
    goes down or grows by more than the number of requests. *)
Theorem records_kept (trim : string → string) reqs st id doc :
  db st !! id = Some doc →
  ∃ doc', db (serveAll trim reqs st) !! id = Some doc'
          ∧ createdAt doc' = createdAt doc
          ∧ (version doc ≤ version doc'
             ≤ version doc + Z.of_nat (length reqs))%Z.
Proof.
  intros Hdoc. induction reqs as [|r reqs (mid & Hmid & Hc & Hv)] using rev_ind.
  - exists doc. simpl. repeat split; [done|lia..].
  - unfold serveAll in *. rewrite foldl_app. cbn [foldl].
    destruct (written_kept _ _ id mid (serveRequest_written trim _ r) Hmid)
      as (doc' & Hdoc' & Hc' & Hv').
    exists doc'. rewrite length_app. simpl.
    repeat split; [done|congruence|lia..].
Qed.

Lemma records_kept_witness :
  ∃ doc',
    db (serveAll trimSpaces
          [PostReq "b" (Some " Beta"); PatchReq "a" renameOnly;
           SocketReq (UpdateScore "s1" (setMadLudo three) 0);
           Elapse 100; Fire 1 0] oneTeam) !! "a" = Some doc'
    ∧ createdAt doc' = createdAt (newTeam "Alpha" 1)
    ∧ (version (newTeam "Alpha" 1) ≤ version doc'
       ≤ version (newTeam "Alpha" 1) + Z.of_nat 5)%Z.
Proof.
  exact (records_kept trimSpaces
           [PostReq "b" (Some " Beta"); PatchReq "a" renameOnly;
            SocketReq (UpdateScore "s1" (setMadLudo three) 0);
            Elapse 100; Fire 1 0] oneTeam "a" (newTeam "Alpha" 1) eq_refl).
Defined.

(** ** Socket events while the process lives *)

Lemma serve_snoc evs ev st :
  serve (evs ++ [ev]) st
  = match serve evs st with
    | Some st' =>
        match run (onEvent ev) st' with
        | (Return _, st'') => Some st''
        | (Throw _, _) => None
        end
    | None => None
    end.
Proof. unfold serve. by rewrite foldl_app. Qed.

(** Once the process has ended, no event is handled. *)
Lemma serve_ended evs ev rest st :
  match serve evs st with
  | Some st' => ∃ e st'', run (onEvent ev) st' = (Throw e, st'')
  | None => True
  end →
  serve (evs ++ ev :: rest) st = None.
Proof.
  intros Hend. unfold serve in *. rewrite foldl_app. cbn [foldl].
  set (step := λ alive ev0,
         match alive with
         | Some st0 =>
             match run (onEvent ev0) st0 with
             | (Return _, st') => Some st'
             | (Throw _, _) => None
             end
         | None => None
         end) in *.
  assert (∀ l, foldl step None l = None) as Hdead
    by (induction l; [done|by simpl]).
  destruct (foldl step (Some st) evs) as [st'|]; simpl; [|apply Hdead].
  destruct Hend as (e & st'' & ->). apply Hdead.
Qed.

Lemma onEvent_accepted ev st :
  accepted (db st) ev = true →
  ∃ st', run (onEvent ev) st = (Return tt, st').
Proof.
  destruct ev as [s|s|s|s data jitter]; cbn [onEvent accepted].
  - intros _. unfold run, onConnection. rewrite bind_eq. simpl.
    rewrite try_catch_eq, bind_eq, getLeaderboard_eq. simpl.
    destruct (findFails st); by eexists.
  - intros _. by eexists.
  - intros _. by eexists.
  - rewrite !andb_true_iff. intros [[Hf Hv] Hdoc].
    destruct (value data) as [|q] eqn:Hvalue; [done|].
    apply bool_decide_eq_true in Hv. apply bool_decide_eq_true in Hdoc.
    destruct Hdoc as [doc Hdoc].
    unfold run. rewrite onUpdateScore_eq. simpl.
    rewrite (attemptUpdate_success _ _ _ _ _ _ (committed (field data) q doc doc)
               (set_db (insert (teamId data) (committed (field data) q doc doc))
                  (counted st)) []);
      [by eexists|].
    rewrite Hvalue. by apply (atomicUpdateScore_alone _ _ _ _ (counted st) doc).
Qed.

Lemma onEvent_refused ev st :
  accepted (db st) ev = false →
  ∃ e st', run (onEvent ev) st = (Throw e, st').
Proof.
  destruct ev as [s|s|s|s data jitter]; cbn [onEvent accepted]; try done.
  intros Hrefused.
  assert (∃ e st1 k1,
            atomicUpdateScore (teamId data) (field data) (value data) None []
              (counted st) = (Throw e, st1, k1)) as (e & st1 & k1 & Hrun).
  { destruct (includes validFields (field data)) eqn:Hf; simpl in Hrefused;
      [|eexists _, _, _; by apply atomicUpdateScore_invalid_field].
    destruct (value data) as [|q];
      [eexists _, _, _; by apply atomicUpdateScore_NaN|].
    destruct (Qclt_le_dec q 0) as [Hneg|Hq];
      [eexists _, _, _; by apply atomicUpdateScore_negative|].
    rewrite (bool_decide_eq_true_2 _ Hq) in Hrefused. simpl in Hrefused.
    apply bool_decide_eq_false in Hrefused.
    eexists _, _, _. apply atomicUpdateScore_not_found; [done|done|].
    simpl. destruct (db st !! teamId data) eqn:Hdoc; [|done].
    destruct Hrefused. by eexists. }
  unfold run. rewrite onUpdateScore_eq. simpl.
  destruct (attemptUpdate_throw s data 0 jitter [] (counted st) e st1 k1 Hrun)
    as [e' ->].
  by eexists _, _.
Qed.

Lemma onEvent_counters ev st :
  let st' := during (onEvent ev) st in
  activeConnections st'
    = activeConnections st + (if isConnect ev then 1 else 0)
      - (if isDisconnect ev then 1 else 0)
  ∧ updateCounter st'
    = updateCounter st + (if isUpdateScore ev then 1 else 0)
  ∧ totalUpdatesPerSecond st' = totalUpdatesPerSecond st.
Proof.
  destruct ev as [s|s|s|s data jitter]; cbn [onEvent]; simpl.
  - destruct (onConnection_counters s st) as (-> & -> & ->).
    repeat split; lia.
  - unfold during, run. simpl. repeat split; lia.
  - unfold during, run. simpl. repeat split; lia.
  - destruct (onUpdateScore_counters s data jitter st) as (-> & -> & ->).
    repeat split; lia.
Qed.

Lemma accepted_kept d d' ev :
  (∀ id, is_Some (d !! id) → is_Some (d' !! id)) →
  accepted d ev = true → accepted d' ev = true.
Proof.
  intros Hkept. destruct ev as [s|s|s|s data jitter]; simpl; try done.
  rewrite !andb_true_iff, !bool_decide_eq_true.
  intros [Hv Hdoc]. split; [done|]. by apply Hkept.
Qed.

(** Events that the collection accepts are all handled: the process
    lives, and the counters have counted them. *)
Lemma serve_accepted evs st :
  Forall (λ ev, accepted (db st) ev = true) evs →
  ∃ st',
    serve evs st = Some st'
    ∧ activeConnections st'
      = activeConnections st + Z.of_nat (length (List.filter isConnect evs))
        - Z.of_nat (length (List.filter isDisconnect evs))
    ∧ updateCounter st'
      = updateCounter st + Z.of_nat (length (List.filter isUpdateScore evs))
    ∧ totalUpdatesPerSecond st' = totalUpdatesPerSecond st
    ∧ (∀ id, is_Some (db st !! id) → is_Some (db st' !! id)).
Proof.
  induction evs as [|ev evs IH] using rev_ind; intros Hall.
  - exists st. simpl. repeat split; try done; lia.
  - apply Forall_app in Hall as [Hall Hev]. rewrite Forall_singleton in Hev.
    destruct (IH Hall) as (st1 & Hserve & Ha & Hu & Ht & Hkept).
    apply (accepted_kept _ (db st1)) in Hev; [|done].
    destruct (onEvent_accepted ev st1 Hev) as [st2 Hrun].
    exists st2. rewrite serve_snoc, Hserve, Hrun. split; [done|].
    assert (during (onEvent ev) st1 = st2) as Hduring
      by (unfold during; by rewrite Hrun).
    destruct (onEvent_counters ev st1) as (Ha' & Hu' & Ht').
    rewrite Hduring in Ha', Hu', Ht'.
    rewrite !List.filter_app, !length_app. simpl.
    split; [|split; [|split]].
    + rewrite Ha', Ha. destruct ev; simpl; lia.
    + rewrite Hu', Hu. destruct ev; simpl; lia.
    + by rewrite Ht', Ht.
    + intros id [doc Hdoc]%Hkept.
      pose proof (onEvent_written ev st1) as Hw. rewrite Hduring in Hw.
      destruct (written_kept _ _ id doc Hw Hdoc) as (doc' & Hdoc' & _).
      by eexists.
Qed.

(** X10.  Over any sequence of socket events that the collection
    accepts (every [updateScore] in it names one of the five fields, a
    value that is neither [NaN] nor negative, and a stored team), each
    handled from start to end, the process lives: [activeConnections]
    has grown by the number of connections minus the number of
    disconnections, [updateCounter] by the number of [updateScore]
    events, and the next sample moves that count into
    [totalUpdatesPerSecond] and starts again from 0.  An [updateScore]
    that the store then refuses ends the process: its listener rejects,
    nothing handles the rejection, and no later event is handled. *)
Theorem load_counters evs st :
  Forall (λ ev, accepted (db st) ev = true) evs →
  ∃ st',
    serve evs st = Some st'
    ∧ activeConnections st'
      = activeConnections st + Z.of_nat (length (List.filter isConnect evs))
        - Z.of_nat (length (List.filter isDisconnect evs))
    ∧ updateCounter st'
      = updateCounter st + Z.of_nat (length (List.filter isUpdateScore evs))
    ∧ totalUpdatesPerSecond st' = totalUpdatesPerSecond st
    ∧ totalUpdatesPerSecond (during sampleRate st')
      = updateCounter st + Z.of_nat (length (List.filter isUpdateScore evs))
    ∧ updateCounter (during sampleRate st') = 0
    ∧ (∀ ev rest, accepted (db st') ev = false →
                  serve (evs ++ ev :: rest) st = None).
Proof.
  intros Hall.
  destruct (serve_accepted evs st Hall) as (st' & Hserve & Ha & Hu & Ht & _).
  exists st'. do 4 (split; [done|]).
  split; [unfold during, run; simpl; by rewrite Hu|]. split; [done|].
  intros ev rest Hrefused. apply serve_ended. rewrite Hserve.
  by apply onEvent_refused.
Qed.

Lemma load_counters_witness :
  ∃ st',
    serve [Connect "s1"; UpdateScore "s1" (setMadLudo three) 0; Connect "s2";
           Disconnect "s1"] oneTeam = Some st'
    ∧ activeConnections st' = 1
    ∧ updateCounter st' = 1
    ∧ serve [Connect "s1"; UpdateScore "s1" (setMadLudo three) 0;
             Connect "s2"; Disconnect "s1";
             UpdateScore "s2" {| teamId := "a"; field := "foo";
                                 value := Fin three |} 0;
             Ping "s2"] oneTeam = None.
Proof.
  destruct (load_counters
              [Connect "s1"; UpdateScore "s1" (setMadLudo three) 0;
               Connect "s2"; Disconnect "s1"] oneTeam)
    as (st' & Hserve & Ha & Hu & _ & _ & _ & Hend).
  - repeat constructor.
  - exists st'. split; [done|]. split; [done|]. split; [done|].
    apply (Hend (UpdateScore "s2" {| teamId := "a"; field := "foo";
                                     value := Fin three |} 0) [Ping "s2"]).
    reflexivity.
Defined.

(** X12.  After events that the collection accepts and a run of the
    sampler, a ping is answered to the asking socket alone, with the
    server's clock, the connection count and the number of
    [updateScore] events received since the sample before; the editor
    grades its connection by that number, and nothing else in the
    server changes. *)
Theorem ping_reports_sampled_rate socket evs latency st :
  Forall (λ ev, accepted (db st) ev = true) evs →
  updateCounter st = 0 →
  ∃ served,
    serve evs st = Some served
    ∧ let st' := during sampleRate served in
      let updates := Z.of_nat (length (List.filter isUpdateScore evs)) in
      let m := pong (now st') {| connections := activeConnections st';
                                 updatesPerSecond := updates |} in
      during (onPing socket) st' = add_emitted (SocketEmit socket m) st'
      ∧ sentTo socket (during (onPing socket) st')
        = (sentTo socket st' ++ [m])%list
      ∧ handlePong latency m = Some (connectionQuality latency updates).
Proof.
  intros Hall Hzero.
  destruct (serve_accepted evs st Hall) as (served & Hserve & _ & Hu & _).
  exists served. split; [done|]. intros st' updates m.
  assert (during (onPing socket) st' = add_emitted (SocketEmit socket m) st')
    as Hping.
  { unfold during at 1, run, onPing. munfold. subst m updates.
    rewrite Hu, Hzero. by rewrite Z.add_0_l. }
  split; [done|]. split; [|done].
  rewrite Hping, sentTo_add_socket. by rewrite decide_True.
Qed.

Lemma ping_reports_sampled_rate_witness :
  ∃ served,
    serve [Connect "s1"; UpdateScore "s1" (setMadLudo three) 0;
           UpdateScore "s1" (setMadLudo five) 0] oneTeam = Some served
    ∧ sentTo "s1" (during (onPing "s1") (during sampleRate served))
      = (sentTo "s1" (during sampleRate served)
         ++ [pong 0 {| connections := 1; updatesPerSecond := 2 |}])%list.
Proof.
  destruct (ping_reports_sampled_rate "s1"
              [Connect "s1"; UpdateScore "s1" (setMadLudo three) 0;
               UpdateScore "s1" (setMadLudo five) 0] 0 oneTeam)
    as (served & Hserve & _ & Hsent & _).
  - repeat constructor.
  - reflexivity.
  - exists served. split; [done|].
    assert (served = default oneTeam
                       (serve [Connect "s1"; UpdateScore "s1" (setMadLudo three) 0;
                               UpdateScore "s1" (setMadLudo five) 0] oneTeam))
      as Hserved by (by rewrite Hserve).
    rewrite Hsent. f_equal. f_equal. rewrite Hserved. reflexivity.
Defined.

(** ** Totals over whole scores *)

Lemma exactState_set_db st id doc :
  exactState st → exact doc → exactState (set_db (insert id doc) st).
Proof.
  intros [Hdb Htimers] Hdoc. split; [|done]. simpl.
  by apply map_Forall_insert_2.
Qed.

Lemma debouncedBroadcast_exact st :
  exactState st → exactState (during debouncedBroadcast st).
Proof.
  intros [Hdb Htimers].
  destruct (debouncedBroadcast_state st) as (Hdb' & _ & _ & Htimers').
  split; [by rewrite Hdb'|]. rewrite Htimers'.
  apply Forall_app. split; [|by repeat constructor].
  destruct (broadcastTimeout st); [|done].
  apply Forall_forall. intros t [_ Hin]%list_elem_of_filter.
  by apply (proj1 (Forall_forall _ _) Htimers).
Qed.

Lemma attemptUpdate_exact socket data retryCount jitter st :
  exactValue (value data) → exactState st →
  exactState (during (attemptUpdate socket data retryCount jitter) st).
Proof.
  intros Hvalue Hst. unfold during, run.
  destruct (atomicUpdateScore (teamId data) (field data) (value data) None []
              st) as [[[r|e] st1] k1] eqn:Hrun.
  - rewrite (attemptUpdate_success _ _ _ _ _ _ r st1 k1) by done. simpl.
    apply atomicUpdateScore_Return_inv in Hrun
      as (q & read & stored & Hv & Hf & Hq & Hread & Hstored & _ & -> & -> & _).
    simpl in *. rewrite Hread in Hstored. injection Hstored as <-.
    rewrite Hv in Hvalue.
    apply (debouncedBroadcast_exact
             (set_db (insert (teamId data)
                        (committed (field data) q read read)) st)).
    apply exactState_set_db; [done|].
    apply committed_exact; [done|by apply Hvalue|].
    by apply (proj1 Hst (teamId data) read).
  - destruct (attemptUpdate_throw socket data retryCount jitter [] st e st1 k1
                Hrun) as [e' ->].
    simpl.
    by assert (st1 = st) as ->
      by (by apply atomicUpdateScore_Throw_inv in Hrun as [->|[->| ->]]).
Qed.

Lemma onEvent_exact ev st :
  exactRequest (SocketReq ev) → exactState st →
  exactState (during (onEvent ev) st).
Proof.
  destruct ev as [s|s|s|s data jitter]; cbn [onEvent exactRequest];
    intros Hreq Hst.
  - unfold during, run, onConnection. rewrite bind_eq. simpl.
    rewrite try_catch_eq, bind_eq, getLeaderboard_eq. simpl.
    by destruct (findFails st).
  - done.
  - done.
  - unfold during, run. rewrite onUpdateScore_eq. simpl.
    by apply (attemptUpdate_exact s data 0 jitter (counted st)).
Qed.

Lemma lookupNumber_elem updates key q :
  lookupNumber updates key = Some q →
  ∃ p, p ∈ body_numbers updates ∧ p.2 = q.
Proof.
  unfold lookupNumber.
  destruct (List.find (λ p, bool_decide (p.1 = key)) (body_numbers updates))
    as [p|] eqn:Hfind; [|done].
  intros [= <-]. apply find_some in Hfind as [Hin _].
  exists p. split; [by apply list_elem_of_In|done].
Qed.

Lemma assignAllowed_allScores (P : Qc → Prop) team updates :
  Forall (λ p, P p.2) (body_numbers updates) →
  allScores P team → allScores P (assignAllowed team updates).
Proof.
  intros Hnumbers Hteam. unfold assignAllowed.
  assert (allScores P (match body_name updates with
                       | Some s => if includes allowedFields "name"
                                   then set_name s team else team
                       | None => team
                       end)) as Hnamed.
  { destruct (body_name updates); [|done].
    by destruct (includes allowedFields "name"). }
  revert Hnamed. generalize (match body_name updates with
                             | Some s => if includes allowedFields "name"
                                         then set_name s team else team
                             | None => team
                             end).
  induction Hnumbers as [|p l Hp _ IH]; intros t Ht; [done|]. simpl.
  apply IH. destruct (includes allowedFields p.1); [|done].
  by apply setField_allScores.
Qed.

Lemma preSave_allScores (P : Qc → Prop) loaded doc :
  allScores P doc → allScores P (preSave loaded doc).
Proof. unfold preSave. by destruct (scoresModified loaded doc). Qed.

(** What [save] stores for a body of whole scores: the validators
    refuse a negative score, so every score that is stored is whole. *)
Lemma saved_exact loaded updates :
  Forall (λ p, exactValue (Fin p.2)) (body_numbers updates) →
  validDoc (assignAllowed loaded updates) = true →
  exact loaded →
  exact (preSave loaded (assignAllowed loaded updates)).
Proof.
  intros Hnumbers Hvalid [Hwhole Hcons].
  destruct (assignAllowed_version loaded updates) as [Hv Hc].
  destruct (preSave_version loaded (assignAllowed loaded updates)) as [Hv' Hc'].
  pose proof (save_alone_consistent loaded updates Hcons) as Hcons'.
  rewrite writeModified_loaded in Hcons' by congruence.
  split; [|done]. apply preSave_allScores.
  assert (allScores (λ q, exactValue (Fin q)) (assignAllowed loaded updates))
    as (H1 & H2 & H3 & H4 & H5).
  { apply assignAllowed_allScores; [done|].
    destruct Hwhole as (H1 & H2 & H3 & H4 & H5). repeat split; by intros _. }
  apply validDoc_spec in Hvalid as (_ & P1 & P2 & P3 & P4 & P5).
  repeat split; auto.
Qed.

Lemma patchTeam_exact id updates st :
  exactRequest (PatchReq id updates) → exactState st →
  exactState (during (patchTeam id updates) st).
Proof.
  simpl. intros Hnumbers Hst. unfold during.
  destruct (patchTeam_alone id updates st) as (resp & st' & -> & Hcases).
  simpl.
  destruct Hcases as [(f & q & doc & Hs & Hdoc & Hv & Hq & _ & ->)
                     |[(loaded & _ & Hl & Hvalid & _ & _ & ->)|(-> & _)]].
  - destruct (singleScore_Some _ _ Hs) as (_ & _ & Hf).
    apply (debouncedBroadcast_exact
             (set_db (insert id (committed f q doc doc)) st)).
    apply exactState_set_db; [done|].
    apply committed_exact; [done| |by apply (proj1 Hst id doc)].
    destruct (lookupNumber updates f) as [q'|] eqn:Hlookup; [|done].
    injection Hv as ->.
    apply lookupNumber_elem in Hlookup as (p & Hin & <-).
    by apply (proj1 (Forall_forall _ _) Hnumbers p Hin).
  - destruct (assignAllowed_version loaded updates) as [Hv Hc].
    destruct (preSave_version loaded (assignAllowed loaded updates))
      as [Hv' Hc'].
    rewrite writeModified_loaded by congruence.
    apply (debouncedBroadcast_exact
             (set_db (insert id (preSave loaded (assignAllowed loaded updates)))
                st)).
    apply exactState_set_db; [done|].
    apply saved_exact; [done|done|by apply (proj1 Hst id loaded)].
  - done.
Qed.

Lemma postTeam_exact (trim : string → string) id given st :
  exactState st → exactState (during (postTeam trim id given) st).
Proof.
  intros Hst. unfold during, run, postTeam. rewrite try_catch_eq.
  destruct given as [n|]; [|done]. simpl.
  destruct (negb (negb (bool_decide (n = ""))) || bool_decide (trim n = ""));
    [done|].
  rewrite bind_eq, await_eq. unfold saveNew at 1. munfold.
  destruct (validDoc (newDocument trim (trim n) (now st))) eqn:Hvalid; simpl;
    [|done].
  destruct (db st !! id) as [old|] eqn:Hid; simpl; [done|].
  destruct (nameTaken (db st) id (trim (trim n))) eqn:Hfree; simpl; [done|].
  rewrite await_eq, broadcastLeaderboard_eq. simpl.
  assert (exactState
            (set_db (insert id
                       (set_total (scoreSum (newDocument trim (trim n) (now st)))
                          (newDocument trim (trim n) (now st)))) st)) as Hnew.
  { apply exactState_set_db; [done|]. split; [|done].
    repeat split; apply wholeScore_0. }
  by destruct (findFails st).
Qed.

Lemma fireTimer_exact h jitter st :
  exactState st → exactState (during (fireTimer h jitter) st).
Proof.
  intros [Hdb Htimers]. unfold during, run, fireTimer. rewrite bind_eq. simpl.
  destruct (List.find (λ t, bool_decide (handle t = h)) (timers st)) as [t|]
    eqn:Hfind; [|done].
  case_bool_decide; [|done].
  rewrite bind_eq. simpl.
  assert (exactState (set_timers (filter (λ t0, handle t0 ≠ h) (timers st))
                        (nextHandle st) st)) as Hcleared.
  { split; [done|]. simpl. apply Forall_forall.
    intros t0 [_ Hin]%list_elem_of_filter.
    by apply (proj1 (Forall_forall _ _) Htimers). }
  apply find_some in Hfind as [Hin _]. apply list_elem_of_In in Hin.
  pose proof (proj1 (Forall_forall _ _) Htimers t Hin) as Ht.
  unfold exactTimer in Ht.
  destruct (callback t) as [|socket data retryCount].
  - rewrite broadcastCallback_eq. simpl. by destruct (findFails st).
  - by apply (attemptUpdate_exact socket data retryCount jitter
                (set_timers (filter (λ t0, handle t0 ≠ h) (timers st))
                   (nextHandle st) st)).
Qed.

Lemma serveRequest_exact (trim : string → string) st r :
  exactRequest r → exactState st → exactState (serveRequest trim st r).
Proof.
  destruct r as [ev| |id given|id updates|h jitter|ms|]; intros Hr Hst.
  - by apply onEvent_exact.
  - simpl. unfold during, run, getTeams.
    rewrite try_catch_eq, bind_eq, await_eq, getLeaderboard_eq. simpl.
    by destruct (findFails st).
  - by apply postTeam_exact.
  - by apply patchTeam_exact.
  - by apply fireTimer_exact.
  - done.
  - done.
Qed.

(** X21.  Over any sequence of requests whose numbers are whole scores
    (whole numbers from 0 up to a fifth of [Number.MAX_SAFE_INTEGER];
    a number that the validation refuses may be anything), each served
    from start to end: if every record has whole scores with [total]
    their sum, and every pending retry holds such a value, then every
    record still has whole scores with [total] their sum.  Every write
    path keeps the invariant when nothing is served between its read and
    its write. *)
Theorem totals_kept (trim : string → string) reqs st :
  allExact (db st) → Forall exactTimer (timers st) →
  Forall exactRequest reqs →
  allExact (db (serveAll trim reqs st)).
Proof.
  intros Hdb Htimers Hreqs.
  assert (exactState (serveAll trim reqs st)) as [Hexact _]; [|done].
  revert Hreqs. induction reqs as [|r reqs IH] using rev_ind; intros Hreqs;
    [done|].
  apply Forall_app in Hreqs as [Hreqs Hr]. rewrite Forall_singleton in Hr.
  unfold serveAll in *. rewrite foldl_app. cbn [foldl].
  apply serveRequest_exact; [done|]. by apply IH.
Qed.

Lemma totals_kept_witness :
  allExact (db oneTeam)
  ∧ allExact
      (db (serveAll trimSpaces
             [SocketReq (UpdateScore "s1" (setMadLudo three) 0);
              PatchReq "a" {| body_name := Some "Alpha2";
                              body_numbers := [("madLudo", five)] |};
              PostReq "b" (Some "Beta"); GetReq; Elapse 100; Fire 1 0]
             oneTeam)).
Proof.
  assert (wholeScore three ∧ wholeScore five) as [H3 H5]
    by (split; by apply wholeScore_of_Z).
  assert (allExact (db oneTeam)) as Hexact.
  { unfold oneTeam, initState, allExact. simpl. apply map_Forall_singleton.
    split; [|done]. repeat split; apply wholeScore_0. }
  split; [exact Hexact|].
  apply (totals_kept trimSpaces
           [SocketReq (UpdateScore "s1" (setMadLudo three) 0);
            PatchReq "a" {| body_name := Some "Alpha2";
                            body_numbers := [("madLudo", five)] |};
            PostReq "b" (Some "Beta"); GetReq; Elapse 100; Fire 1 0]
           oneTeam Hexact).
  - constructor.
  - repeat constructor; by intros _.
Defined.
